(** * lofreq_core/utils.c: a shallow embedding and its verified properties

    The development follows the layout of [utils.c]: the growable integer
    array, the comparators and statistics helpers, the file probes, the
    whole-file loader and the symbolic-link resolver.  The first part holds
    the embedding, the second part the lemmas and theorems about it. *)

From Stdlib Require Import ZArith Lia ZifyBool List Bool Ascii String Floats Permutation.
From stdpp Require Import base list strings sorting gmap.

Local Open Scope Z_scope.

(* ===================================================================== *)
(** * Part I: the embedding *)
(* ===================================================================== *)

(** ** Platform constants

    The model is the LP64 one: [size_t] has 64 bits, [int] has 32 bits and
    four bytes, a [double] and a pointer have eight bytes.  [SIZE_MAX] is [(size_t)-1] as in the fallback definition at
    the top of [utils.c]. *)

Definition SIZE_MAX : Z := 2 ^ 64 - 1.
Definition INT_MAX : Z := 2 ^ 31 - 1.
Definition sizeof_int : Z := 4.
Definition sizeof_double : Z := 8.

(** Arithmetic on [size_t] is modular. *)
Definition size_t (x : Z) : Z := x mod 2 ^ 64.

(** ** Outcomes of a call

    A call either returns, stops in a failed [assert] (the overflow guards of
    the array), or leaves defined behaviour (an access outside the allocated
    block or through [NULL]). *)

Inductive result (A : Type) : Type :=
| Ok (a : A)
| AllocationOverflow
| OutOfBounds.

Arguments Ok {A} a.
Arguments AllocationOverflow {A}.
Arguments OutOfBounds {A}.

Definition bind {A B : Type} (r : result A) (k : A -> result B) : result B :=
  match r with
  | Ok a => k a
  | AllocationOverflow => AllocationOverflow
  | OutOfBounds => OutOfBounds
  end.

Notation "'let*' x ':=' r 'in' k" := (bind r (fun x => k))
  (at level 10, x name, r at level 100, k at level 200).

(** [assert(c)]: continue when [c] holds, stop otherwise. *)
Definition assert (c : bool) : result unit :=
  if c then Ok tt else AllocationOverflow.

(** ** The heap

    The blocks handed out by [malloc] and [realloc], by address; a block of
    the array is seen as the [int] cells that fit into it.  A pointer is
    [NULL] ([None]) or an address; an address is live as long as the heap
    maps it to a block.  Which requests the allocator serves is not the
    program's to decide: [served size] tells whether a request of [size]
    bytes is granted. *)

Abbreviation heap := (gmap positive (list Z)).

(** [free(p)]: nothing for [NULL]; a live block is given back; anything else
    (a block that was freed before) leaves defined behaviour. *)
Definition free (h : heap) (p : option positive) : result heap :=
  match p with
  | None => Ok h
  | Some l =>
      match h !! l with
      | Some _ => Ok (delete l h)
      | None => OutOfBounds
      end
  end.

(** [realloc(p, size)] on a block of [int] cells.  A refused request returns
    [NULL] and leaves the old block as it is.  A served one returns a block
    of [size / sizeof(int)] whole cells: the old cells are kept as far as
    they fit, fresh cells are indeterminate (shown as [0]; nothing below
    reads them).  The block keeps its address here; the array holds the only
    pointer to it, so a move would not be seen. *)
Definition realloc (served : Z -> bool) (h : heap) (p : option positive)
    (size : Z) : result (heap * option positive) :=
  match p with
  | None =>
      if served size then
        let l := fresh (dom h) in
        Ok (<[l := replicate (Z.to_nat (size / sizeof_int)) 0]> h, Some l)
      else Ok (h, None)
  | Some l =>
      match h !! l with
      | Some cells =>
          if served size then
            Ok (<[l := resize (Z.to_nat (size / sizeof_int)) 0 cells]> h, Some l)
          else Ok (h, None)
      | None => OutOfBounds
      end
  end.

(** ** The growable array [int_varray_t]

    The structure is declared in [utils.h]; its fields are taken as [utils.c]
    uses them.  [data] is [NULL] ([None]) or the address of the owned block;
    [n] counts the stored elements; [alloced] is the block's size in bytes;
    [grow_by_size] is the growth parameter. *)

Record int_varray_t : Type := mk_varray {
  data : option positive;
  n : Z;
  alloced : Z;
  grow_by_size : Z
}.

(** [free(a->data); a->data = NULL; a->n = a->alloced = a->grow_by_size = 0]. *)
Definition int_varray_free (h : heap) (a : int_varray_t)
  : result (heap * int_varray_t) :=
  let* h' := free h (data a) in
  Ok (h', {| data := None; n := 0; alloced := 0; grow_by_size := 0 |}).

Definition int_varray_init (grow_by_size : Z) : int_varray_t :=
  {| data := None; n := 0; alloced := 0; grow_by_size := grow_by_size |}.

(** [a->data[a->n] = value; a->n++]. *)
Definition store_value (h : heap) (a : int_varray_t) (value : Z)
  : result (heap * int_varray_t) :=
  match data a with
  | None => OutOfBounds
  | Some l =>
      match h !! l with
      | None => OutOfBounds
      | Some cells =>
          if (Z.to_nat (n a) <? length cells)%nat then
            Ok (<[l := <[Z.to_nat (n a) := value]> cells]> h,
                {| data := Some l;
                   n := size_t (n a + 1);
                   alloced := alloced a;
                   grow_by_size := grow_by_size a |})
          else OutOfBounds
      end
  end.

(** The test that opens the growing branch: [a->n * sizeof(int) == a->alloced]. *)
Definition needs_growth (a : int_varray_t) : bool :=
  size_t (n a * sizeof_int) =? alloced a.

(** [a->data = realloc(a->data, size_to_alloc); a->alloced = size_to_alloc]:
    the result is stored without a test, so after a refused request [data]
    is [NULL] and [alloced] is the size that was asked for. *)
Definition set_block (served : Z -> bool) (h : heap) (a : int_varray_t)
    (size_to_alloc : Z) : result (heap * int_varray_t) :=
  let* grown := realloc served h (data a) size_to_alloc in
  Ok (fst grown, {| data := snd grown;
                    n := n a;
                    alloced := size_to_alloc;
                    grow_by_size := grow_by_size a |}).

Definition int_varray_add_value (served : Z -> bool) (h : heap)
    (a : int_varray_t) (value : Z) : result (heap * int_varray_t) :=
  if needs_growth a then
    let* size_to_alloc :=
      (if 1 >=? grow_by_size a then
         let* _checked := assert (SIZE_MAX - alloced a >? alloced a) in
         Ok (if 0 =? n a then sizeof_int else size_t (alloced a * 2))
       else
         let* _checked := assert (SIZE_MAX - alloced a >? grow_by_size a) in
         Ok (size_t (alloced a + grow_by_size a))) in
    let* grown := set_block served h a size_to_alloc in
    store_value (fst grown) (snd grown) value
  else store_value h a value.

(** A run of appends, left to right. *)
Fixpoint add_values (served : Z -> bool) (h : heap) (a : int_varray_t)
    (vs : list Z) : result (heap * int_varray_t) :=
  match vs with
  | [] => Ok (h, a)
  | v :: vs' =>
      let* next := int_varray_add_value served h a v in
      add_values served (fst next) (snd next) vs'
  end.

(** Reading [a->data[i]] back. *)
Definition get_value (h : heap) (a : int_varray_t) (i : nat) : option Z :=
  match data a with
  | None => None
  | Some l =>
      match h !! l with
      | None => None
      | Some cells => cells !! i
      end
  end.

(** Capacity in elements: the whole [int] cells of the block. *)
Definition capacity (a : int_varray_t) : Z := alloced a / sizeof_int.

(** The fields of a state are [size_t] values. *)
Definition valid_varray (a : int_varray_t) : Prop :=
  0 <= n a <= SIZE_MAX /\ 0 <= alloced a <= SIZE_MAX /\
  0 <= grow_by_size a <= SIZE_MAX.

(** The array's pointer is [NULL] or a live block of the heap. *)
Definition owns_block (h : heap) (a : int_varray_t) : Prop :=
  match data a with
  | None => True
  | Some l => is_Some (h !! l)
  end.

(** The size the next growth asks for, as a mathematical integer. *)
Definition next_size (a : int_varray_t) : Z :=
  if 1 >=? grow_by_size a then
    (if 0 =? n a then sizeof_int else alloced a * 2)
  else alloced a + grow_by_size a.

(** The amount the guard in front of the growth compares against. *)
Definition increment (a : int_varray_t) : Z :=
  if 1 >=? grow_by_size a then alloced a else grow_by_size a.

(** The next append has to grow the block, and the size it asks for is not
    representable. *)
Definition would_overflow (a : int_varray_t) : Prop :=
  needs_growth a = true /\ next_size a > SIZE_MAX.

(** What a run of appends that has stored [done] keeps true of the array
    with growth parameter [g]. *)
Definition varray_inv (g : Z) (done : list Z) (h : heap) (a : int_varray_t)
  : Prop :=
  grow_by_size a = g /\
  n a = Z.of_nat (length done) /\
  alloced a mod sizeof_int = 0 /\
  sizeof_int * n a <= alloced a <= SIZE_MAX /\
  match data a with
  | None => alloced a = 0
  | Some l =>
      exists cells, h !! l = Some cells /\
        length cells = Z.to_nat (alloced a / sizeof_int) /\
        take (length done) cells = done
  end.

(** An allocator that serves every request, and one that serves requests of
    up to 64 bytes. *)
Definition serves_all (size : Z) : bool := true.
Definition serves_small (size : Z) : bool := size <=? 64.

(** ** Comparators and statistics

    [double] is IEEE 754 binary64, that is, Rocq's primitive [float].
    [DBL_EPSILON] is the constant of [<float.h>], [2^-52]. *)

Definition DBL_EPSILON : float := 0x1p-52%float.

Definition dbl_cmp (da db : float) : Z :=
  if (abs (da - db) <? DBL_EPSILON)%float then 0
  else if (da <? db)%float then -1
  else if (db <? da)%float then 1
  else 0.

(** [arr[i]] for an array object of [length arr] doubles. *)
Definition read_d (arr : list float) (i : Z) : result float :=
  if i <? 0 then OutOfBounds
  else match arr !! Z.to_nat i with
       | Some x => Ok x
       | None => OutOfBounds
       end.

(** The loop of [argmax_d].  [todo] counts the iterations that remain, that
    is [n - i]; [log] collects the indices the loop reads, in order. *)
Fixpoint argmax_loop (arr : list float) (todo : nat) (i maxidx : Z)
    (log : list Z) : result (Z * list Z) :=
  match todo with
  | O => Ok (maxidx, log)
  | S todo' =>
      let* x := read_d arr i in
      let* m := read_d arr maxidx in
      argmax_loop arr todo' (i + 1)
        (if (m <? x)%float then i else maxidx) (log ++ [i; maxidx])
  end.

(** Returns [maxidx] together with the log of array reads. *)
Definition argmax_d (arr : list float) (n : Z) : result (Z * list Z) :=
  argmax_loop arr (Z.to_nat n) 0 0 [].

(** [qsort] belongs to the C library, which fixes what it does by a
    contract and not by an algorithm.  [qsort] below is the reference sort
    of this development, an insertion sort: it looks at the elements only
    through the comparator and leaves elements the comparator calls equal in
    their input order.  It stands for the library's sort where the
    comparator is a consistent order, as [int_cmp] and [strcmp] are. *)
Fixpoint qsort_insert {A : Type} (cmp : A -> A -> Z) (x : A) (l : list A)
  : list A :=
  match l with
  | [] => [x]
  | y :: l' => if cmp x y <=? 0 then x :: y :: l' else y :: qsort_insert cmp x l'
  end.

Fixpoint qsort {A : Type} (cmp : A -> A -> Z) (l : list A) : list A :=
  match l with
  | [] => []
  | x :: l' => qsort_insert cmp x (qsort cmp l')
  end.

(** "At most" as the comparator sees it. *)
Definition cmp_le {A : Type} (cmp : A -> A -> Z) (x y : A) : Prop :=
  cmp x y <= 0.

(** The comparator is a consistent order on the elements of [l], which is
    what the C standard asks of the function handed to [qsort]: swapping the
    arguments swaps the sign, and "at most" is transitive. *)
Definition cmp_consistent_on {A : Type} (cmp : A -> A -> Z) (l : list A)
  : bool :=
  forallb (fun x =>
    forallb (fun y =>
      Bool.eqb (cmp x y <? 0) (0 <? cmp y x)
      && forallb (fun z =>
           implb ((cmp x y <=? 0) && (cmp y z <=? 0)) (cmp x z <=? 0)) l) l) l.

(** The comparator orders the elements of [l] totally: it is a consistent
    order on them, and it calls only identical values equal. *)
Definition cmp_total_on {A : Type} (eqb : A -> A -> bool) (cmp : A -> A -> Z)
    (l : list A) : bool :=
  cmp_consistent_on cmp l
  && forallb (fun x => forallb (fun y => implb (cmp x y =? 0) (eqb x y)) l) l.

(** The contract of the library's sort: an array on which the comparator is
    a consistent order is left as a permutation of itself in ascending
    order.  Nothing is promised for other arrays. *)
Definition sorts_consistent_input {A : Type} (cmp : A -> A -> Z)
    (sort : list A -> list A) : Prop :=
  forall l, cmp_consistent_on cmp l = true ->
    sort l ≡ₚ l /\ StronglySorted (cmp_le cmp) (sort l).

(** A sort that only moves the elements of the array around, whatever the
    comparator answers. *)
Definition rearranges {A : Type} (sort : list A -> list A) : Prop :=
  forall l, sort l ≡ₚ l.

(** [sdata[k]] on the sorted copy. *)
Definition at_index (sdata : list float) (k : Z) : float :=
  default 0%float (sdata !! Z.to_nat k).

(** [dbl_median(data, size)]: [data] is the array object, [size] the element
    count handed over.  [served] is the allocator's answer to
    [malloc(sizeof(double) * size)], which the code does not test: the copy
    into a null block leaves defined behaviour.  [memcpy] reads [size]
    doubles from [data].  [sort] is the library's [qsort] with [dbl_cmp] on
    the copy (the element size handed over is that of a pointer to
    [double], which is the size of a [double]). *)
Definition dbl_median (served : Z -> bool) (sort : list float -> list float)
    (data : list float) (size : Z) : result float :=
  if size =? 0 then Ok 0%float
  else if negb (served (size_t (sizeof_double * size))) then OutOfBounds
  else if (size <? 0) || (Z.of_nat (length data) <? size) then OutOfBounds
  else
    let sdata := sort (take (Z.to_nat size) data) in
    if size mod 2 =? 0 then
      Ok ((at_index sdata (size / 2) + at_index sdata (size / 2 - 1)) / 2)%float
    else
      Ok (at_index sdata (size / 2)).

(** The middle of an arrangement, in the specification's words: the middle
    element for odd length, the arithmetic mean of the two middle elements
    for even length. *)
Definition middle_of (sorted : list float) : float :=
  let size := Z.of_nat (length sorted) in
  if size mod 2 =? 0 then
    ((at_index sorted (size / 2) + at_index sorted (size / 2 - 1)) / 2)%float
  else at_index sorted (size / 2).

(** What it means for [r] to be the index of the maximum, lowest on ties:
    every element is at most [arr[r]], every earlier one is strictly below. *)
Definition is_argmax (arr : list float) (r : Z) : Prop :=
  exists m, 0 <= r /\ arr !! Z.to_nat r = Some m /\
    (forall j x, arr !! j = Some x -> (x <=? m)%float = true) /\
    (forall j x, (j < Z.to_nat r)%nat -> arr !! j = Some x ->
                 (x <? m)%float = true).

Definition not_nan (x : float) : bool := (x =? x)%float.

(** ** File probes

    [st_mode] constants of [<sys/stat.h>], with their usual (Linux, BSD)
    octal values 0170000, 0040000, 0060000, 0120000. *)

Definition S_IFMT : Z := 61440.
Definition S_IFDIR : Z := 16384.
Definition S_IFBLK : Z := 24576.
Definition S_IFLNK : Z := 40960.

Definition S_ISDIR (st_mode : Z) : bool := Z.land st_mode S_IFMT =? S_IFDIR.
Definition S_ISLNK (st_mode : Z) : bool := Z.land st_mode S_IFMT =? S_IFLNK.

(** The operating system as the code sees it: what each call answers in a
    process whose working directory is the first argument.  [None] is the
    failure return of the call.  The file system can change between two
    calls, so the answers of different calls are not tied to each other. *)
Record os : Type := mk_os {
  os_getcwd_ok : string -> bool;
  os_stat : string -> string -> option Z;
  os_lstat : string -> string -> option Z;
  os_link_target : string -> string -> option string;
  os_chdir : string -> string -> option string;
  os_realpath : string -> string -> option string
}.

Definition is_dir (w : os) (cwd path : string) : Z :=
  match os_stat w cwd path with
  | Some st_mode => if negb (Z.land st_mode S_IFDIR =? 0) then 1 else 0
  | None => 0
  end.

(** ** Loading a file into memory

    The C library's stream and allocator, as far as
    [ae_load_file_to_memory] uses them.  A stream has its content and the
    number of bytes [fread] can deliver before it fails; [io_malloc_ok] tells
    which request sizes [malloc] serves. *)

Record FILE : Type := mk_file {
  f_bytes : list Z;
  f_readable : nat
}.

Record stdio : Type := mk_stdio {
  io_fopen : string -> option FILE;
  io_malloc_ok : Z -> bool
}.

(** A [char *]: [NULL], a live block (a byte not yet written is [None]), or
    the address of a block that has been freed. *)
Inductive pointer : Type :=
| Null
| Block (cells : list (option Z))
| Dangling.

(** Conversion of a [long] to [int]. *)
Definition to_int (x : Z) : Z := (x + 2 ^ 31) mod 2 ^ 32 - 2 ^ 31.

Definition malloc (io : stdio) (size : Z) : pointer :=
  if io_malloc_ok io size then Block (replicate (Z.to_nat size) None)
  else Null.

(** [fread(p, 1, count, f)]: the number of bytes read and the block after. *)
Definition fread (p : pointer) (count : Z) (f : FILE) : result (Z * pointer) :=
  if count =? 0 then Ok (0, p)
  else match p with
       | Block cells =>
           let got := take (Nat.min (Z.to_nat count) (f_readable f)) (f_bytes f) in
           if (length got <=? length cells)%nat then
             Ok (Z.of_nat (length got),
                 Block (map Some got ++ drop (length got) cells))
           else OutOfBounds
       | _ => OutOfBounds
       end.

(** [p[i] = c]. *)
Definition store_byte (p : pointer) (i c : Z) : result pointer :=
  match p with
  | Block cells =>
      if (0 <=? i) && (Z.to_nat i <? length cells)%nat
      then Ok (Block (<[Z.to_nat i := Some c]> cells))
      else OutOfBounds
  | _ => OutOfBounds
  end.

(** A store through the out-parameter [result]: it needs a non-null address. *)
Definition store_out (result_addr : option unit) : result unit :=
  match result_addr with
  | Some _ => Ok tt
  | None => OutOfBounds
  end.

Definition is_null {A : Type} (p : option A) : bool :=
  match p with
  | None => true
  | Some _ => false
  end.

(** [ae_load_file_to_memory(filename, result)].  [result_addr] is the
    out-parameter [result] itself ([None] when the caller passes [NULL]);
    the outcome pairs the return value with what [*result] holds. *)
Definition ae_load_file_to_memory (io : stdio) (filename : string)
    (result_addr : option unit) : result (Z * pointer) :=
  match io_fopen io filename with
  | None =>
      let* _stored := store_out result_addr in
      Ok (-1, Null)
  | Some f =>
      let size := to_int (Z.of_nat (length (f_bytes f))) in
      let p := malloc io (size_t (size + 1)) in
      let* _stored := store_out result_addr in
      if is_null result_addr then Ok (-2, p)
      else
        let* rd := fread p (size_t size) f in
        if negb (size_t size =? fst rd) then Ok (-3, Dangling)
        else
          let* p2 := store_byte (snd rd) size 0 in
          Ok (size, p2)
  end.

(** ** Reading a symbolic link

    [readlink(filename, buffer, size)] for a link whose content is [target]
    ([None]: not a link, the call fails).  The kernel copies at most [size]
    bytes and no terminator.  A null [buffer] cannot take a single byte: the
    call fails with [EFAULT].  Copying more bytes than the block holds
    overruns it. *)
Definition readlink (target : option string) (buffer : option (list (option ascii)))
    (size : Z) : result (Z * option (list (option ascii))) :=
  match target with
  | None => Ok (-1, buffer)
  | Some t =>
      let got := take (Z.to_nat size) (list_ascii_of_string t) in
      match buffer with
      | None => Ok (if (length got =? 0)%nat then 0 else -1, None)
      | Some cells =>
          if (length got <=? length cells)%nat then
            Ok (Z.of_nat (length got),
                Some (map Some got ++ drop (length got) cells))
          else OutOfBounds
      end
  end.

(** [realloc] on a block of bytes. *)
Definition realloc_bytes (buffer : option (list (option ascii))) (size : Z)
  : option (list (option ascii)) :=
  Some (resize (Z.to_nat size) None (default [] buffer)).

(** The [while (1)] loop of [readlink_malloc]; [None] when [fuel] rounds do
    not reach a [return]. *)
Fixpoint readlink_malloc_loop (fuel : nat) (target : option string)
    (buffer : option (list (option ascii))) (size : Z)
  : option (result (option (list (option ascii)))) :=
  match fuel with
  | O => None
  | S fuel' =>
      match readlink target buffer size with
      | Ok (nchars, buffer1) =>
          let buffer2 := realloc_bytes buffer1 size in
          if nchars <? 0 then Some (Ok None)
          else if nchars <? size then Some (Ok buffer2)
          else readlink_malloc_loop fuel' target buffer2 (size * 2)
      | AllocationOverflow => Some AllocationOverflow
      | OutOfBounds => Some OutOfBounds
      end
  end.

Definition readlink_malloc (fuel : nat) (w : os) (cwd filename : string)
  : option (result (option (list (option ascii)))) :=
  readlink_malloc_loop fuel (os_link_target w cwd filename) None 100.

(** The buffer holds the link's content in its first bytes. *)
Definition holds_target (buffer : list (option ascii)) (t : string) : Prop :=
  take (String.length t) buffer = map Some (list_ascii_of_string t).

(** ** Resolving a path

    [dirname] of [<libgen.h>], after the C library's code: find the last
    slash; when it ends the path, step back over the slashes in front of it
    and take the slash before the last component instead; cut the path at
    the first of the slashes that end the directory part.  A path without a
    directory part gives ["."], a directory part of slashes only gives
    ["/"], or ["//"] when it is exactly two slashes. *)

(** [memrchr(path, '/', n)]: the last slash among the first [n] bytes. *)
Fixpoint memrchr_slash (path : list ascii) (n : nat) : option nat :=
  match n with
  | O => None
  | S n' =>
      match path !! n' with
      | Some c => if Ascii.eqb c "/"%char then Some n' else memrchr_slash path n'
      | None => memrchr_slash path n'
      end
  end.

(** [for (runp = last_slash; runp != path; --runp) if (runp[-1] != '/') break;] *)
Fixpoint skip_slashes_back (path : list ascii) (runp : nat) : nat :=
  match runp with
  | O => O
  | S r =>
      match path !! r with
      | Some c => if Ascii.eqb c "/"%char then skip_slashes_back path r else runp
      | None => runp
      end
  end.

Definition dirname (path : string) : string :=
  let p := list_ascii_of_string path in
  let last_slash := memrchr_slash p (length p) in
  let last_slash :=
    match last_slash with
    | Some l =>
        if negb (l =? 0)%nat && (S l =? length p)%nat then
          let runp := skip_slashes_back p l in
          if negb (runp =? 0)%nat then memrchr_slash p runp else last_slash
        else last_slash
    | None => None
    end in
  match last_slash with
  | Some l =>
      let runp := skip_slashes_back p l in
      let cut := if (runp =? 0)%nat
                 then (if (l =? 1)%nat then 2%nat else 1%nat)
                 else runp in
      string_of_list_ascii (take cut p)
  | None => "."
  end.

(** A buffer read as a C string: the bytes in front of the first zero byte.
    Reading a byte that was never written, or running off the block, leaves
    defined behaviour ([None]). *)
Fixpoint buffer_string (buffer : list (option ascii)) : option string :=
  match buffer with
  | [] => None
  | None :: _ => None
  | Some c :: rest =>
      if Ascii.eqb c Ascii.zero then Some EmptyString
      else String c <$> buffer_string rest
  end.

(** Where [resolved_path] leaves: the labels name the statement that ends
    the call. *)
Inductive exit_point : Type :=
| GetcwdFailed
| LstatFailed
| ReadlinkFailed
| ChdirFailed
| RealpathFailed
| Resolved.

(** The state in which [resolved_path] returns: the returned pointer
    ([None] is [NULL]), the working directory of the process, and the exit
    taken. *)
Record returned : Type := mk_returned {
  ret_path : option string;
  ret_cwd : string;
  ret_exit : exit_point
}.

(** The label [chdir_and_return]: [chdir(orig_wd)], an error message when it
    fails, then [return resolved_path]. *)
Definition chdir_and_return (w : os) (orig_wd cwd : string)
    (resolved : option string) (e : exit_point) : returned :=
  match os_chdir w cwd orig_wd with
  | Some cwd' => {| ret_path := resolved; ret_cwd := cwd'; ret_exit := e |}
  | None => {| ret_path := resolved; ret_cwd := cwd; ret_exit := e |}
  end.

(** The [while (1)] loop of [resolved_path], with its call of
    [readlink_malloc].  [realpath] reads what [readlink_malloc] returned as
    a C string.  A [strdup] that fails hands [lstat] a null path, which
    fails: that run is the one where [os_lstat] answers [None].  The outer
    [None] is for a run that [fuel] rounds do not end. *)
Fixpoint resolved_path_loop (fuel : nat) (w : os) (orig_wd cwd : string)
    (resolved_path : string) : option (result returned) :=
  match fuel with
  | O => None
  | S fuel' =>
      match os_lstat w cwd resolved_path with
      | None => Some (Ok (chdir_and_return w orig_wd cwd None LstatFailed))
      | Some st_mode =>
          if negb (S_ISLNK st_mode) then
            Some (Ok (chdir_and_return w orig_wd cwd (Some resolved_path)
                        Resolved))
          else
            match readlink_malloc fuel w cwd resolved_path with
            | None => None
            | Some AllocationOverflow => Some AllocationOverflow
            | Some OutOfBounds => Some OutOfBounds
            | Some (Ok None) =>
                Some (Ok (chdir_and_return w orig_wd cwd None ReadlinkFailed))
            | Some (Ok (Some tmp_path)) =>
                match os_chdir w cwd (dirname resolved_path) with
                | None =>
                    Some (Ok {| ret_path := None; ret_cwd := cwd;
                                ret_exit := ChdirFailed |})
                | Some cwd' =>
                    match buffer_string tmp_path with
                    | None => Some OutOfBounds
                    | Some target =>
                        match os_realpath w cwd' target with
                        | None =>
                            Some (Ok (chdir_and_return w orig_wd cwd' None
                                        RealpathFailed))
                        | Some realpath_buf =>
                            resolved_path_loop fuel' w orig_wd cwd' realpath_buf
                        end
                    end
                end
            end
      end
  end.

Definition resolved_path (fuel : nat) (w : os) (cwd path : string)
  : option (result returned) :=
  if os_getcwd_ok w cwd then resolved_path_loop fuel w cwd cwd path
  else Some (Ok {| ret_path := None; ret_cwd := cwd; ret_exit := GetcwdFailed |}).


(** ** Concrete environments

    The environments at which the code is run in the second part. *)

(** A block device: [st_mode] is [S_IFBLK] with permissions 0660; and a
    socket, [S_IFSOCK] (0140000) with permissions 0755. *)
Definition dev_os : os :=
  {| os_getcwd_ok := fun _ => true;
     os_stat := fun _ path =>
       if String.eqb path "/dev/sda" then Some 25008
       else if String.eqb path "/run/lofreq.sock" then Some 49645
       else None;
     os_lstat := fun _ _ => None;
     os_link_target := fun _ _ => None;
     os_chdir := fun _ _ => None;
     os_realpath := fun _ _ => None |}.

(** A five-byte file and an allocator that is out of memory. *)
Definition reads_file : FILE := {| f_bytes := [65; 67; 71; 84; 10]; f_readable := 5 |}.

Definition no_memory : stdio :=
  {| io_fopen := fun name =>
       if String.eqb name "reads.txt" then Some reads_file else None;
     io_malloc_ok := fun _ => false |}.

(** The same file with an allocator that serves every request, and with a
    stream that fails after three bytes. *)
Definition enough_memory : stdio :=
  {| io_fopen := fun name =>
       if String.eqb name "reads.txt" then Some reads_file
       else if String.eqb name "broken.txt"
            then Some {| f_bytes := [65; 67; 71; 84; 10]; f_readable := 3 |}
       else None;
     io_malloc_ok := fun _ => true |}.

(** [/tmp/link] is a symbolic link to [reads.bam]. *)
Definition one_link : os :=
  {| os_getcwd_ok := fun _ => true;
     os_stat := fun _ _ => None;
     os_lstat := fun _ path =>
       if String.eqb path "/tmp/link" then Some 41471 else None;
     os_link_target := fun _ path =>
       if String.eqb path "/tmp/link" then Some "reads.bam"%string else None;
     os_chdir := fun _ path => Some path;
     os_realpath := fun _ _ => None |}.

(** A process whose working directory [/secret/sub] can no longer be
    entered by its path (search permission on [/secret] is gone); the link
    [/tmp/link] points to the regular file [/tmp/data.bam]. *)
Definition locked_out : os :=
  {| os_getcwd_ok := fun _ => true;
     os_stat := fun _ _ => None;
     os_lstat := fun _ path =>
       if String.eqb path "/tmp/link" then Some 41471
       else if String.eqb path "/tmp/data.bam" then Some 33188
       else None;
     os_link_target := fun _ path =>
       if String.eqb path "/tmp/link" then Some "data.bam"%string else None;
     os_chdir := fun _ path =>
       if String.eqb path "/tmp" then Some "/tmp"%string else None;
     os_realpath := fun cwd path =>
       if String.eqb cwd "/tmp" && String.eqb path "data.bam"
       then Some "/tmp/data.bam"%string else None |}.

(** ** The remaining functions of [utils.c] *)

(** The block is never more than one growth step ahead of the elements. *)
Definition within_one_step (g : Z) (count : Z) (a : int_varray_t) : Prop :=
  (count = 0 /\ alloced a = 0) \/
  (1 <= count /\
   alloced a < (if 1 >=? g then 2 * sizeof_int * count
                else sizeof_int * count + g)).

(** [int_cmp]: the comparison is made on the values, with no subtraction. *)
Definition int_cmp (ia ib : Z) : Z :=
  if ia <? ib then -1 else if ia >? ib then 1 else 0.

(** A [char] read as [unsigned char]. *)
Definition byte_of (c : ascii) : Z := Z.of_nat (nat_of_ascii c).

(** [strcmp] of the C library: the difference of the first two bytes that
    differ, the end of a string counting as the byte 0 at which the
    comparison stops. *)
Fixpoint strcmp (a b : string) : Z :=
  match a, b with
  | EmptyString, EmptyString => 0
  | EmptyString, String d _ => 0 - byte_of d
  | String c _, EmptyString => byte_of c
  | String c a', String d b' =>
      if Ascii.eqb c d then (if byte_of c =? 0 then 0 else strcmp a' b')
      else byte_of c - byte_of d
  end.

(** [str_cmp] hands the two pointed-to strings to [strcmp]. *)
Definition str_cmp (a b : string) : Z := strcmp a b.

(** [strstr(haystack, needle) != NULL]. *)
Fixpoint strstr (haystack needle : string) : bool :=
  if String.prefix needle haystack then true
  else match haystack with
       | EmptyString => false
       | String _ rest => strstr rest needle
       end.

(** [strlen] on a buffer: the index of the first zero byte; [None] when the
    buffer holds none, and the scan leaves it. *)
Fixpoint strlen (buf : list ascii) : option nat :=
  match buf with
  | [] => None
  | c :: rest => if Ascii.eqb c Ascii.zero then Some 0%nat else S <$> strlen rest
  end.

(** The string a buffer holds: the bytes in front of the terminator. *)
Definition c_string (buf : list ascii) : option (list ascii) :=
  len ← strlen buf; Some (take len buf).

(** [chomp(s)], on the buffer [s] points into.  [end] is an [int] that
    receives the [size_t] value [strlen(s) - 1]. *)
Definition chomp (s : list ascii) : result (list ascii) :=
  match strlen s with
  | None => OutOfBounds
  | Some len =>
      let end_ := to_int (size_t (Z.of_nat len - 1)) in
      if end_ >=? 0 then
        match s !! Z.to_nat end_ with
        | Some c =>
            if Ascii.eqb c "010"%char then Ok (<[Z.to_nat end_ := Ascii.zero]> s)
            else Ok s
        | None => OutOfBounds
        end
      else Ok s
  end.

Definition LONG_MAX : Z := 2 ^ 63 - 1.

(** The [while (EOF != (c = getc(f)))] loop of [count_lines] over the bytes
    the stream delivers. *)
Fixpoint count_lines_loop (stream : list Z) (count : Z) : Z :=
  match stream with
  | [] => count
  | c :: rest =>
      if 10 =? c then
        if count =? LONG_MAX then -2
        else count_lines_loop rest (count + 1)
      else count_lines_loop rest count
  end.

(** The number of newline bytes in a stream. *)
Definition newlines (stream : list Z) : Z :=
  Z.of_nat (length (List.filter (Z.eqb 10) stream)).

(** [getc] ends the loop at the end of the file and at a read error alike:
    the loop sees the bytes in front of either. *)
Definition count_lines (io : stdio) (filename : string) : Z :=
  match io_fopen io filename with
  | None => -1
  | Some f => count_lines_loop (take (f_readable f) (f_bytes f)) 0
  end.

(** What [ls_dir] needs of its environment: the names [readdir] delivers
    for a directory ([None]: [opendir] fails), and which requests [realloc]
    and [calloc] serve. *)
Record dir_env : Type := mk_dir_env {
  de_opendir : string -> option (list string);
  de_realloc_ok : Z -> bool;
  de_calloc_ok : Z -> bool
}.

Definition sizeof_ptr : Z := 8.

(** [sprintf(dst, "%s/%s", path, d_name)] into a block of [cap] bytes. *)
Definition sprintf_path (cap : Z) (path d_name : string) : result string :=
  if Z.of_nat (String.length path + 1 + String.length d_name) + 1 <=? cap
  then Ok (path ++ "/" ++ d_name)%string
  else OutOfBounds.

(** The flag [match] of the loop: the entry is kept when there is no
    pattern, or when the pattern occurs in its name. *)
Definition is_match (pattern : option string) (d_name : string) : bool :=
  match pattern with
  | Some pat => strstr d_name pat
  | None => true
  end.

(** The [readdir] loop of [ls_dir].  The outcome [None] is the early
    [return -1] after a failed [realloc], which leaves [*matches] null;
    otherwise the loop ends with the count and the array.  [num_matches] is
    an [int]: incrementing it at [INT_MAX] leaves defined behaviour. *)
Fixpoint ls_dir_loop (de : dir_env) (path : string) (pattern : option string)
    (entries : list string) (matches : option (list string)) (num_matches : Z)
  : result (option (Z * option (list string))) :=
  match entries with
  | [] => Ok (Some (num_matches, matches))
  | d_name :: rest =>
      if negb (is_match pattern d_name)
      then ls_dir_loop de path pattern rest matches num_matches
      else if num_matches =? INT_MAX then OutOfBounds
      else
        let num_matches := num_matches + 1 in
        if negb (de_realloc_ok de (size_t (num_matches * sizeof_ptr)))
        then Ok None
        else
          let cap := size_t (Z.of_nat (String.length path)
                             + Z.of_nat (String.length d_name) + 1 + 1) in
          if negb (de_calloc_ok de cap) then OutOfBounds
          else
            let* entry := sprintf_path cap path d_name in
            ls_dir_loop de path pattern rest
              (Some (default [] matches ++ [entry])) num_matches
  end.

(** [ls_dir(matches, path, pattern, sort_lexi)]: the return value and what
    [*matches] holds. *)
Definition ls_dir (de : dir_env) (path : string) (pattern : option string)
    (sort_lexi : bool) : result (Z * option (list string)) :=
  match de_opendir de path with
  | None => Ok (-1, None)
  | Some entries =>
      let* looped := ls_dir_loop de path pattern entries None 0 in
      match looped with
      | None => Ok (-1, None)
      | Some (num_matches, matches) =>
          Ok (num_matches,
              if sort_lexi then qsort str_cmp <$> matches else matches)
      end
  end.

(** What the listing is meant to select: the kept names, in directory
    order, each behind [path] and a slash. *)
Definition selected (path : string) (pattern : option string)
    (entries : list string) : list string :=
  map (fun d_name => (path ++ "/" ++ d_name)%string)
      (List.filter (is_match pattern) entries).

(** The array [*matches] that holds the strings [l]: it stays [NULL]
    until the first string is stored. *)
Definition as_array (l : list string) : option (list string) :=
  match l with
  | [] => None
  | _ => Some l
  end.

(** A directory with five entries, and an allocator that serves every
    request. *)
Definition sample_dir : dir_env :=
  {| de_opendir := fun path =>
       if String.eqb path "/data"
       then Some ["."; ".."; "b_foo.bam"; "notes.txt"; "a_foo.bam"]%string
       else None;
     de_realloc_ok := fun _ => true;
     de_calloc_ok := fun _ => true |}.

(** The same directory with an allocator that refuses the second growth of
    the array. *)
Definition tight_dir : dir_env :=
  {| de_opendir := de_opendir sample_dir;
     de_realloc_ok := fun size => size <=? 8;
     de_calloc_ok := fun _ => true |}.

(** [/tmp/..] canonicalises to the root; nothing else resolves. *)
Definition root_os : os :=
  {| os_getcwd_ok := fun _ => true;
     os_stat := fun _ _ => None;
     os_lstat := fun _ _ => None;
     os_link_target := fun _ _ => None;
     os_chdir := fun _ _ => None;
     os_realpath := fun _ path =>
       if String.eqb path "/tmp/.." then Some "/"%string else None |}.

Definition PATH_MAX : Z := 4096.

(** [strcat(dst, src)] into a block of [cap] bytes. *)
Definition strcat (cap : Z) (dst src : string) : result string :=
  if Z.of_nat (String.length dst + String.length src) + 1 <=? cap
  then Ok (dst ++ src)%string
  else OutOfBounds.

(** The allocator's answers to the three requests of [join_paths]: the
    [malloc] of [buf], the [malloc] of [buf_resolved] and the [realloc] of
    [*p1], each by the size asked for. *)
Record join_env : Type := mk_join_env {
  je_buf_ok : Z -> bool;
  je_buf_resolved_ok : Z -> bool;
  je_realloc_ok : Z -> bool
}.

(** [join_paths(p1, p2)].  [p1] is [None] for a null [p1], [Some None] for
    a null [*p1]; the outcome pairs the returned pointer with what [*p1]
    holds afterwards.  [bufsize] is an [int].  None of the three allocations
    is tested: [buf[0] = 0] writes through a null [buf]; with a null
    [buf_resolved], [realpath] allocates its answer itself and the code then
    takes [strlen] of the null pointer; [strcpy] writes through a null
    [*p1].  Otherwise [realpath] writes its answer into [buf_resolved], a
    block of [bufsize] bytes. *)
Definition join_paths (je : join_env) (w : os) (cwd : string)
    (p1 : option (option string)) (p2 : option string)
  : result (option string * option (option string)) :=
  match p1, p2 with
  | None, _ => Ok (None, p1)
  | _, None => Ok (None, p1)
  | Some None, Some _ => OutOfBounds
  | Some (Some base), Some component =>
      let bufsize := to_int (size_t (Z.of_nat (String.length base) + 1
                                     + Z.of_nat (String.length component) + 1)) in
      let bufsize := if bufsize <? PATH_MAX then PATH_MAX else bufsize in
      let cap := size_t bufsize in
      if negb (je_buf_ok je cap) then OutOfBounds
      else
        let* b1 := strcat cap "" base in
        let* b2 := strcat cap b1 "/" in
        let* buf := strcat cap b2 component in
        match os_realpath w cwd buf with
        | None => Ok (None, p1)
        | Some buf_resolved =>
            if negb (je_buf_resolved_ok je cap) then OutOfBounds
            else if Z.of_nat (String.length buf_resolved) + 1 <=? cap then
              if je_realloc_ok je
                   (size_t (Z.of_nat (String.length buf_resolved) + 1))
              then Ok (Some buf_resolved, Some (Some buf_resolved))
              else OutOfBounds
            else OutOfBounds
        end
  end.

(** An allocator that serves the three requests, and one that has no room
    for [buf_resolved]. *)
Definition roomy : join_env :=
  {| je_buf_ok := fun _ => true;
     je_buf_resolved_ok := fun _ => true;
     je_realloc_ok := fun _ => true |}.

Definition cramped : join_env :=
  {| je_buf_ok := fun _ => true;
     je_buf_resolved_ok := fun _ => false;
     je_realloc_ok := fun _ => true |}.

(* ===================================================================== *)
(** * Part II: properties *)
(* ===================================================================== *)

(** ** The growable array *)

Lemma size_t_small (x : Z) : 0 <= x <= SIZE_MAX -> size_t x = x.
Proof. unfold size_t, SIZE_MAX. intros H. apply Z.mod_small. lia. Qed.

Lemma store_value_no_overflow (h : heap) (a : int_varray_t) (v : Z) :
  store_value h a v <> AllocationOverflow.
Proof.
  unfold store_value. destruct (data a) as [l|]; [|discriminate].
  destruct (h !! l) as [cells|]; [|discriminate].
  destruct (_ <? _)%nat; discriminate.
Qed.

Lemma store_value_alloced (h h' : heap) (a a' : int_varray_t) (v : Z) :
  store_value h a v = Ok (h', a') ->
  alloced a' = alloced a /\ grow_by_size a' = grow_by_size a.
Proof.
  unfold store_value. destruct (data a) as [l|]; [|discriminate].
  destruct (h !! l) as [cells|]; [|discriminate].
  destruct (_ <? _)%nat; [|discriminate].
  intros [= <- <-]. simpl. auto.
Qed.

Lemma set_block_no_overflow (served : Z -> bool) (h : heap) (a : int_varray_t)
    (size : Z) :
  set_block served h a size <> AllocationOverflow.
Proof.
  unfold set_block, realloc. destruct (data a) as [l|].
  - destruct (h !! l) as [cells|]; [|discriminate].
    destruct (served size); discriminate.
  - destruct (served size); discriminate.
Qed.

Lemma set_block_alloced (served : Z -> bool) (h h' : heap) (a a' : int_varray_t)
    (size : Z) :
  set_block served h a size = Ok (h', a') ->
  alloced a' = size /\ grow_by_size a' = grow_by_size a /\ n a' = n a.
Proof.
  unfold set_block. destruct (realloc served h (data a) size) as [[h1 p]| |];
    cbn [bind]; [|discriminate..].
  intros [= <- <-]. simpl. auto.
Qed.

(** A growth followed by the store never ends in the overflow guard, and
    when it returns the block has the size that was asked for. *)
Lemma grow_and_store_no_overflow (served : Z -> bool) (h : heap)
    (a : int_varray_t) (size v : Z) :
  (let* grown := set_block served h a size in
   store_value (fst grown) (snd grown) v) <> AllocationOverflow.
Proof.
  destruct (set_block served h a size) as [[h1 a1]| |] eqn:E; cbn [bind fst snd].
  - apply store_value_no_overflow.
  - now apply set_block_no_overflow in E.
  - discriminate.
Qed.

Lemma grow_and_store_alloced (served : Z -> bool) (h h' : heap)
    (a a' : int_varray_t) (size v : Z) :
  (let* grown := set_block served h a size in
   store_value (fst grown) (snd grown) v) = Ok (h', a') ->
  alloced a' = size /\ grow_by_size a' = grow_by_size a.
Proof.
  destruct (set_block served h a size) as [[h1 a1]| |] eqn:E; cbn [bind fst snd];
    [|discriminate..].
  intros H. apply store_value_alloced in H as [H1 H2].
  apply set_block_alloced in E as (E1 & E2 & _). split; congruence.
Qed.

(** The heap tells a second [free] of the same block from the first. *)
Lemma free_twice_undefined (h h' : heap) (l : positive) :
  free h (Some l) = Ok h' -> free h' (Some l) = OutOfBounds.
Proof.
  unfold free. destruct (h !! l) as [cells|] eqn:E; [|discriminate].
  intros [= <-]. now rewrite lookup_delete_eq.
Qed.

(** C9, as the claim has it, fails for an array that was created with a
    growth increment: [int_varray_free] clears the increment as well, so the
    array does not come back to the state it was created in.  An array
    created with increment 8 is, after one append and the release, an array
    with increment 0, and its next growth asks for 4 bytes where the fresh
    array's asks for 8. *)
Lemma int_varray_free_erases_increment :
  exists h1 a1 h2 a2 h3 a3 h4 a4,
    add_values serves_all ∅ (int_varray_init 8) [7] = Ok (h1, a1) /\
    int_varray_free h1 a1 = Ok (h2, a2) /\
    a2 <> int_varray_init 8 /\
    grow_by_size a2 = 0 /\
    int_varray_add_value serves_all h2 a2 7 = Ok (h3, a3) /\
    alloced a3 = 4 /\
    int_varray_add_value serves_all ∅ (int_varray_init 8) 7 = Ok (h4, a4) /\
    alloced a4 = 8.
Proof.
  do 8 eexists.
  split; [vm_compute; reflexivity|].
  split; [vm_compute; reflexivity|].
  split; [discriminate|].
  split; [reflexivity|].
  split; [vm_compute; reflexivity|].
  split; [reflexivity|].
  split; [vm_compute; reflexivity|reflexivity].
Qed.

(** C9, amended: on an array whose pointer is [NULL] or a live block,
    [int_varray_free] gives that block back to the allocator and touches no
    other, and leaves the empty state with no block, length and capacity 0
    and growth increment 0 (the state [int_varray_init 0]).  On an array
    without a block it changes nothing in the heap, and a second call in
    succession returns with the same heap and the same state: the pointer
    was cleared, so no block is freed twice. *)
Theorem int_varray_free_resets (h : heap) (a : int_varray_t) :
  owns_block h a ->
  exists h',
    int_varray_free h a = Ok (h', int_varray_init 0) /\
    (forall l, data a = Some l -> h' !! l = None) /\
    (forall l, data a <> Some l -> h' !! l = h !! l) /\
    (data a = None -> h' = h) /\
    data (int_varray_init 0) = None /\
    n (int_varray_init 0) = 0 /\
    capacity (int_varray_init 0) = 0 /\
    int_varray_free h' (int_varray_init 0) = Ok (h', int_varray_init 0).
Proof.
  unfold owns_block, int_varray_free, free. destruct (data a) as [l|].
  - intros [cells Hl]. rewrite Hl. cbn [bind]. exists (delete l h).
    split; [reflexivity|]. split.
    { intros l' [= <-]. apply lookup_delete_eq. }
    split.
    { intros l' Hne. apply lookup_delete_ne. congruence. }
    split; [discriminate|]. repeat split.
  - intros _. exists h. cbn [bind]. split; [reflexivity|].
    split; [discriminate|]. repeat split.
Qed.

Lemma int_varray_free_resets_witness :
  owns_block {[ 1%positive := [7; 0] ]}
    {| data := Some 1%positive; n := 1; alloced := 8; grow_by_size := 8 |} /\
  exists h',
    int_varray_free {[ 1%positive := [7; 0] ]}
      {| data := Some 1%positive; n := 1; alloced := 8; grow_by_size := 8 |}
      = Ok (h', int_varray_init 0) /\
    (forall l, Some 1%positive = Some l -> h' !! l = None) /\
    (forall l, Some 1%positive <> Some l ->
               h' !! l = ({[ 1%positive := [7; 0] ]} : heap) !! l) /\
    (Some 1%positive = None -> h' = {[ 1%positive := [7; 0] ]}) /\
    data (int_varray_init 0) = None /\
    n (int_varray_init 0) = 0 /\
    capacity (int_varray_init 0) = 0 /\
    int_varray_free h' (int_varray_init 0) = Ok (h', int_varray_init 0).
Proof.
  assert (O : owns_block {[ 1%positive := [7; 0] ]}
    {| data := Some 1%positive; n := 1; alloced := 8; grow_by_size := 8 |}).
  { unfold owns_block. cbn [data]. rewrite lookup_singleton_eq. eauto. }
  split; [exact O|].
  exact (int_varray_free_resets _ _ O).
Defined.

(** C3, as the claim has it, fails on a fresh array whose increment is
    [SIZE_MAX]: the first growth asks for [SIZE_MAX] bytes, which is
    representable, and the guard stops the call all the same. *)
Lemma add_value_guard_rejects_exact_fit :
  valid_varray (int_varray_init SIZE_MAX) /\
  ~ would_overflow (int_varray_init SIZE_MAX) /\
  int_varray_add_value serves_all ∅ (int_varray_init SIZE_MAX) 7
    = AllocationOverflow.
Proof.
  split; [|split].
  - unfold valid_varray, SIZE_MAX. simpl. lia.
  - intros [_ H]. revert H. vm_compute. discriminate.
  - reflexivity.
Qed.

Lemma needs_growth_empty (a : int_varray_t) :
  needs_growth a = true -> n a = 0 -> alloced a = 0.
Proof.
  unfold needs_growth, size_t, sizeof_int. intros G E. rewrite E in G.
  change (0 * 4) with 0 in G. rewrite Z.mod_0_l in G by lia. lia.
Qed.

(** A growth that returns has set the block's size to [next_size], computed
    without wrapping. *)
Lemma add_value_new_size (served : Z -> bool) (h h' : heap)
    (a a' : int_varray_t) (value : Z) :
  valid_varray a ->
  needs_growth a = true ->
  int_varray_add_value served h a value = Ok (h', a') ->
  alloced a' = next_size a /\ next_size a < SIZE_MAX.
Proof.
  intros (Hn & Ha & Hg) G. pose proof (needs_growth_empty a G) as Hzero.
  unfold next_size, int_varray_add_value. rewrite G.
  destruct (1 >=? grow_by_size a) eqn:P; unfold assert.
  - destruct (SIZE_MAX - alloced a >? alloced a) eqn:Q; cbn [bind];
      [|discriminate].
    intros H. apply grow_and_store_alloced in H as [H _]. rewrite H.
    destruct (0 =? n a) eqn:Z0.
    + unfold sizeof_int, SIZE_MAX in *. lia.
    + rewrite size_t_small by lia. lia.
  - destruct (SIZE_MAX - alloced a >? grow_by_size a) eqn:Q; cbn [bind];
      [|discriminate].
    intros H. apply grow_and_store_alloced in H as [H _].
    rewrite H, size_t_small by lia. lia.
Qed.

(** C3, amended: an append stops in the overflow guard exactly when it has
    to grow the block and [SIZE_MAX - alloced <= increment]; that is so
    whenever the new size would exceed [SIZE_MAX] (and also when it would be
    [SIZE_MAX] itself).  The guard is passed before the new size is
    computed, and a size computed after it has not wrapped.  This holds on
    every heap and whatever the allocator answers. *)
Theorem add_value_overflow_guard (served : Z -> bool) (h : heap)
    (a : int_varray_t) (value : Z) :
  valid_varray a ->
  (would_overflow a ->
     int_varray_add_value served h a value = AllocationOverflow) /\
  (int_varray_add_value served h a value = AllocationOverflow <->
     needs_growth a = true /\ SIZE_MAX - alloced a <= increment a) /\
  (forall h' a', int_varray_add_value served h a value = Ok (h', a') ->
     needs_growth a = true -> alloced a' = next_size a /\ next_size a < SIZE_MAX).
Proof.
  intros V. split; [|split].
  2: { destruct V as (Hn & Ha & Hg).
       unfold increment, int_varray_add_value.
       destruct (needs_growth a) eqn:G.
       - destruct (1 >=? grow_by_size a) eqn:P; unfold assert;
           match goal with |- context [?x >? ?y] => destruct (x >? y) eqn:Q end;
           cbn [bind];
           (split; [intros H | intros [_ H]]);
           try (now apply grow_and_store_no_overflow in H);
           try reflexivity; try (split; [reflexivity|]); lia.
       - split; [intros H; now apply store_value_no_overflow in H|].
         intros [H _]. discriminate. }
  - intros [G H]. destruct V as (Hn & Ha & Hg).
    pose proof (needs_growth_empty a G) as Hzero.
    unfold next_size in H. unfold int_varray_add_value. rewrite G.
    destruct (1 >=? grow_by_size a) eqn:P; unfold assert.
    + destruct (SIZE_MAX - alloced a >? alloced a) eqn:Q; [|reflexivity].
      exfalso. unfold sizeof_int, SIZE_MAX in *. destruct (0 =? n a) eqn:Z0; lia.
    + destruct (SIZE_MAX - alloced a >? grow_by_size a) eqn:Q; [|reflexivity].
      lia.
  - intros h' a' H G. now apply (add_value_new_size served h h' a a' value).
Qed.

Lemma add_value_overflow_guard_witness :
  valid_varray (int_varray_init 4) /\
  (would_overflow (int_varray_init 4) ->
     int_varray_add_value serves_small ∅ (int_varray_init 4) 7
       = AllocationOverflow) /\
  (int_varray_add_value serves_small ∅ (int_varray_init 4) 7
     = AllocationOverflow <->
     needs_growth (int_varray_init 4) = true /\
     SIZE_MAX - alloced (int_varray_init 4) <= increment (int_varray_init 4)) /\
  (forall h' a',
     int_varray_add_value serves_small ∅ (int_varray_init 4) 7 = Ok (h', a') ->
     needs_growth (int_varray_init 4) = true ->
     alloced a' = next_size (int_varray_init 4) /\
     next_size (int_varray_init 4) < SIZE_MAX).
Proof.
  assert (V : valid_varray (int_varray_init 4)).
  { unfold valid_varray, SIZE_MAX. simpl. lia. }
  split; [exact V|].
  exact (add_value_overflow_guard serves_small ∅ (int_varray_init 4) 7 V).
Defined.

(** C2, as the claim has it, fails for increments above 1: the increment is
    added to the block's size in bytes, not to its capacity in elements.
    With increment 8 the first growth makes room for two elements, not
    eight, and the third append has to grow the block again. *)
Lemma add_value_increment_counts_bytes :
  exists h1 a1 h3 a3,
    add_values serves_all ∅ (int_varray_init 8) [7] = Ok (h1, a1) /\
    alloced a1 = 8 /\
    capacity a1 = 2 /\
    capacity a1 <> capacity (int_varray_init 8) + 8 /\
    add_values serves_all ∅ (int_varray_init 8) [7; 9; 11] = Ok (h3, a3) /\
    capacity a3 = 4.
Proof.
  do 4 eexists.
  split; [vm_compute; reflexivity|].
  split; [reflexivity|].
  split; [reflexivity|].
  split; [vm_compute; discriminate|].
  split; [vm_compute; reflexivity|reflexivity].
Qed.

(** An increment that is not a multiple of the element size: the block never
    again has a size the growth test recognises, and the second append
    stores outside it.  When the allocator refuses the request the append
    stores through [NULL]. *)
Lemma add_values_outside_the_block :
  add_values serves_all ∅ (int_varray_init 6) [7; 9] = OutOfBounds /\
  add_values (fun _ => false) ∅ (int_varray_init 0) [7] = OutOfBounds.
Proof. split; vm_compute; reflexivity. Qed.

Lemma store_value_inv (g : Z) (done : list Z) (h : heap) (b : int_varray_t)
    (v : Z) (l : positive) (cells : list Z) :
  grow_by_size b = g ->
  n b = Z.of_nat (length done) ->
  alloced b mod sizeof_int = 0 ->
  sizeof_int * (n b + 1) <= alloced b <= SIZE_MAX ->
  data b = Some l ->
  h !! l = Some cells ->
  length cells = Z.to_nat (alloced b / sizeof_int) ->
  take (length done) cells = done ->
  exists h' a', store_value h b v = Ok (h', a') /\
                varray_inv g (done ++ [v]) h' a' /\
                alloced a' = alloced b.
Proof.
  unfold sizeof_int. intros Hg Hn Hmod Hsz Hd Hl Hlen Htake.
  assert (Hlt : (length done < length cells)%nat).
  { assert (n b + 1 <= alloced b / 4) by (apply Z.div_le_lower_bound; lia).
    lia. }
  unfold store_value. rewrite Hd, Hl, Hn, Nat2Z.id.
  destruct (Nat.ltb_spec (length done) (length cells)) as [_|]; [|lia].
  do 2 eexists. split; [reflexivity|]. split; [|reflexivity].
  unfold varray_inv, sizeof_int. cbn [data n alloced grow_by_size].
  rewrite length_app. cbn [length].
  split; [exact Hg|]. split.
  { rewrite size_t_small by (unfold SIZE_MAX in *; lia). lia. }
  split; [exact Hmod|]. split.
  { rewrite size_t_small by (unfold SIZE_MAX in *; lia). lia. }
  eexists. split; [apply lookup_insert_eq|].
  split; [now rewrite length_insert|].
  replace (length done + 1)%nat with (S (length done)) by lia.
  rewrite (take_S_r _ _ v) by (now apply list_lookup_insert_eq).
  rewrite take_insert_ge by lia. now rewrite Htake.
Qed.

Lemma add_value_keeps_inv (served : Z -> bool) (g : Z) (done : list Z) (h : heap)
    (a : int_varray_t) (v : Z) :
  0 <= g ->
  g <= 1 \/ g mod sizeof_int = 0 ->
  2 * sizeof_int * Z.of_nat (length done) + g < SIZE_MAX ->
  (forall size,
      0 < size <= 2 * sizeof_int * (Z.of_nat (length done) + 1) + g ->
      served size = true) ->
  varray_inv g done h a ->
  exists h' a', int_varray_add_value served h a v = Ok (h', a') /\
                varray_inv g (done ++ [v]) h' a'.
Proof.
  intros Hg0 Hpol Hbound Hserved (Hg & Hn & Hmod & Hsz & Hblock).
  unfold sizeof_int in *.
  assert (Hsmall : size_t (n a * 4) = n a * 4).
  { apply size_t_small. unfold SIZE_MAX in *. lia. }
  unfold int_varray_add_value, needs_growth, sizeof_int. rewrite Hsmall.
  destruct (Z.eqb_spec (n a * 4) (alloced a)) as [E|NE].
  - (* the block is full: grow it, then store *)
    assert (Hstore : forall size, size mod 4 = 0 ->
              4 * (n a + 1) <= size <= SIZE_MAX ->
              size <= 2 * 4 * (Z.of_nat (length done) + 1) + g ->
              exists h' a',
                (let* grown := set_block served h a size in
                 store_value (fst grown) (snd grown) v) = Ok (h', a') /\
                varray_inv g (done ++ [v]) h' a').
    { intros size Hm Hs Hreq.
      assert (Hk : (length done <= Z.to_nat (size / 4))%nat).
      { apply Nat2Z.inj_le. rewrite Z2Nat.id by (apply Z.div_pos; lia).
        rewrite <- Hn. apply Z.div_le_lower_bound; lia. }
      unfold set_block, realloc. rewrite Hserved by lia.
      destruct (data a) as [l|] eqn:Hd.
      - destruct Hblock as (cells & Hl & Hlen & Htake). rewrite Hl.
        cbn [bind fst snd].
        assert (Hcells : cells = done).
        { rewrite <- Htake. symmetry. apply take_ge. rewrite Hlen, <- E.
          rewrite Z.div_mul by lia. lia. }
        destruct (store_value_inv g done
                    (<[l := resize (Z.to_nat (size / sizeof_int)) 0 cells]> h)
                    {| data := Some l; n := n a; alloced := size;
                       grow_by_size := grow_by_size a |} v l
                    (resize (Z.to_nat (size / sizeof_int)) 0 cells))
          as (h' & a' & Ha' & Hi & _);
          cbn [data n alloced grow_by_size]; unfold sizeof_int;
          try assumption.
        + reflexivity.
        + apply lookup_insert_eq.
        + now rewrite length_resize.
        + rewrite Hcells, resize_ge by assumption. now rewrite take_app_length.
        + eauto.
      - cbn [bind fst snd].
        assert (Hdone : done = []).
        { destruct done; [reflexivity|]. cbn [length] in Hn. lia. }
        destruct (store_value_inv g done
                    (<[fresh (dom h) :=
                         replicate (Z.to_nat (size / sizeof_int)) 0]> h)
                    {| data := Some (fresh (dom h)); n := n a; alloced := size;
                       grow_by_size := grow_by_size a |} v (fresh (dom h))
                    (replicate (Z.to_nat (size / sizeof_int)) 0))
          as (h' & a' & Ha' & Hi & _);
          cbn [data n alloced grow_by_size]; unfold sizeof_int;
          try assumption.
        + reflexivity.
        + apply lookup_insert_eq.
        + now rewrite length_replicate.
        + now rewrite Hdone.
        + eauto. }
    rewrite Hg.
    destruct (Z.geb_spec 1 g) as [Hle|Hgt]; unfold assert.
    + destruct (Z.gtb_spec (SIZE_MAX - alloced a) (alloced a)) as [_|]; [|lia].
      cbn [bind].
      destruct (Z.eqb_spec 0 (n a)) as [Z0|NZ].
      * apply Hstore; [reflexivity|unfold SIZE_MAX; lia|lia].
      * rewrite size_t_small by lia. apply Hstore; [|lia|lia].
        rewrite <- E. replace (n a * 4 * 2) with (2 * n a * 4) by lia.
        apply Z.mod_mul. lia.
    + destruct (Z.gtb_spec (SIZE_MAX - alloced a) g) as [_|]; [|lia].
      cbn [bind]. rewrite size_t_small by lia.
      destruct Hpol as [|Hpol]; [lia|].
      assert (4 <= g).
      { destruct (Z.le_gt_cases 4 g); [assumption|].
        rewrite Z.mod_small in Hpol; lia. }
      apply Hstore; [|lia|lia].
      rewrite <- Zplus_mod_idemp_l, <- Zplus_mod_idemp_r, Hmod, Hpol.
      reflexivity.
  - (* room is left: store in place *)
    assert (Hroom : 4 * (n a + 1) <= alloced a).
    { pose proof (Z.div_mod (alloced a) 4 ltac:(lia)) as D. lia. }
    destruct (data a) as [l|] eqn:Hd.
    + destruct Hblock as (cells & Hl & Hlen & Htake).
      destruct (store_value_inv g done h a v l cells) as (h' & a' & Ha' & Hi & _);
        unfold sizeof_int; try assumption; try lia. eauto.
    + lia.
Qed.

Lemma add_values_keep_inv (served : Z -> bool) (g : Z) (vs done : list Z)
    (h : heap) (a : int_varray_t) :
  0 <= g ->
  g <= 1 \/ g mod sizeof_int = 0 ->
  2 * sizeof_int * Z.of_nat (length (done ++ vs)) + g < SIZE_MAX ->
  (forall size,
      0 < size <= 2 * sizeof_int * Z.of_nat (length (done ++ vs)) + g ->
      served size = true) ->
  varray_inv g done h a ->
  exists h' a', add_values served h a vs = Ok (h', a') /\
                varray_inv g (done ++ vs) h' a'.
Proof.
  intros Hg0 Hpol. revert done h a.
  induction vs as [|v vs IH]; intros done h a Hbound Hserved Hinv.
  - exists h, a. rewrite app_nil_r. auto.
  - rewrite length_app in Hbound, Hserved. cbn [length] in Hbound, Hserved.
    destruct (add_value_keeps_inv served g done h a v Hg0 Hpol)
      as (h1 & a1 & Ha1 & Hi1);
      [unfold sizeof_int in *; lia
      |intros size Hs; apply Hserved; unfold sizeof_int in *; lia
      |assumption|].
    destruct (IH (done ++ [v]) h1 a1) as (h' & a' & Ha' & Hi').
    + rewrite !length_app. cbn [length]. unfold sizeof_int in *. lia.
    + intros size Hs. apply Hserved. rewrite !length_app in Hs.
      cbn [length] in Hs. unfold sizeof_int in *. lia.
    + assumption.
    + exists h', a'. cbn [add_values]. rewrite Ha1. cbn [bind fst snd].
      rewrite <- app_assoc in Hi'. auto.
Qed.

Lemma init_inv (g : Z) (h : heap) :
  0 <= g <= SIZE_MAX -> varray_inv g [] h (int_varray_init g).
Proof.
  intros H. unfold varray_inv, int_varray_init, sizeof_int, SIZE_MAX in *.
  cbn. repeat split; try reflexivity; lia.
Qed.

(** C2, amended: with an increment of at most 1 the first growth makes room
    for exactly one element and every later growth doubles the block; with
    any larger increment every growth adds exactly that many bytes to the
    block.  With an increment of at most 1, or one that is a multiple of the
    element size, [N] appends to a fresh array leave length [N], capacity at
    least [N], and every value at its index, provided all sizes stay below
    [SIZE_MAX] and the allocator serves the requests up to the largest size
    the run can ask for. *)
Theorem add_values_growth_and_contents (served : Z -> bool) (h : heap) (g : Z)
    (vs : list Z) :
  (forall h0 a v h1 a',
      valid_varray a -> needs_growth a = true ->
      int_varray_add_value served h0 a v = Ok (h1, a') ->
      (grow_by_size a <= 1 -> n a = 0 ->
         alloced a' = sizeof_int /\ capacity a' = 1) /\
      (grow_by_size a <= 1 -> n a <> 0 -> alloced a' = 2 * alloced a) /\
      (1 < grow_by_size a -> alloced a' = alloced a + grow_by_size a)) /\
  (0 <= g ->
   g <= 1 \/ g mod sizeof_int = 0 ->
   2 * sizeof_int * Z.of_nat (length vs) + g < SIZE_MAX ->
   (forall size,
       0 < size <= 2 * sizeof_int * Z.of_nat (length vs) + g ->
       served size = true) ->
   exists h' a,
     add_values served h (int_varray_init g) vs = Ok (h', a) /\
     n a = Z.of_nat (length vs) /\
     Z.of_nat (length vs) <= capacity a /\
     (forall i v, vs !! i = Some v -> get_value h' a i = Some v)).
Proof.
  split.
  - intros h0 a v h1 a' V G H.
    destruct (add_value_new_size served h0 h1 a a' v V G H) as [Hsize _].
    unfold next_size in Hsize.
    destruct (Z.geb_spec 1 (grow_by_size a)); destruct (Z.eqb_spec 0 (n a));
      (split; [|split]); intros; try lia.
    unfold capacity. rewrite Hsize. split; reflexivity.
  - intros Hg0 Hpol Hbound Hserved.
    destruct (add_values_keep_inv served g vs [] h (int_varray_init g) Hg0 Hpol)
      as (h' & a & Ha & Hg & Hn & Hmod & Hsz & Hblock).
    + exact Hbound.
    + exact Hserved.
    + apply init_inv. unfold sizeof_int in *. lia.
    + cbn [app] in *. exists h', a. split; [exact Ha|]. split; [exact Hn|]. split.
      * unfold capacity, sizeof_int in *. apply Z.div_le_lower_bound; lia.
      * intros i v Hi. unfold get_value.
        destruct (data a) as [l|] eqn:Hd.
        -- destruct Hblock as (cells & Hl & Hlen & Htake). rewrite Hl.
           rewrite <- (lookup_take_lt cells (length vs) i).
           ++ now rewrite Htake.
           ++ now apply lookup_lt_Some in Hi.
        -- destruct vs; [discriminate|]. cbn [length] in Hn.
           unfold sizeof_int in *. lia.
Qed.

Lemma add_values_growth_and_contents_witness :
  (forall h0 a v h1 a',
      valid_varray a -> needs_growth a = true ->
      int_varray_add_value serves_small h0 a v = Ok (h1, a') ->
      (grow_by_size a <= 1 -> n a = 0 ->
         alloced a' = sizeof_int /\ capacity a' = 1) /\
      (grow_by_size a <= 1 -> n a <> 0 -> alloced a' = 2 * alloced a) /\
      (1 < grow_by_size a -> alloced a' = alloced a + grow_by_size a)) /\
  exists h' a,
    add_values serves_small ∅ (int_varray_init 8) [10; 20; 30] = Ok (h', a) /\
    n a = Z.of_nat (length [10; 20; 30]) /\
    Z.of_nat (length [10; 20; 30]) <= capacity a /\
    (forall i v, [10; 20; 30] !! i = Some v -> get_value h' a i = Some v).
Proof.
  destruct (add_values_growth_and_contents serves_small ∅ 8 [10; 20; 30])
    as [Hpolicy Hrun].
  split; [exact Hpolicy|]. apply Hrun.
  - lia.
  - right. reflexivity.
  - unfold sizeof_int, SIZE_MAX. simpl. lia.
  - intros size Hs. unfold serves_small, sizeof_int in *. simpl in Hs. lia.
Defined.

(** ** Order facts about [double]

    The comparison of two floats is the comparison [SFcompare] of their
    specification values; the facts below are read off its definition. *)

Ltac sf_order :=
  repeat match goal with
         | s : bool |- _ => destruct s
         end;
  cbn in *;
  repeat match goal with
         | H : context [(?a ?= ?b)%Z] |- _ => destruct (Z.compare_spec a b); subst
         | |- context [(?a ?= ?b)%Z] => destruct (Z.compare_spec a b); subst
         | H : context [PosDef.Pos.compare_cont Eq ?a ?b] |- _ =>
             change (PosDef.Pos.compare_cont Eq a b) with (Pos.compare a b) in *;
             destruct (Pos.compare_spec a b); subst
         | |- context [PosDef.Pos.compare_cont Eq ?a ?b] =>
             change (PosDef.Pos.compare_cont Eq a b) with (Pos.compare a b) in *;
             destruct (Pos.compare_spec a b); subst
         end;
  cbn in *; try discriminate; try reflexivity; try congruence; try lia.

Lemma SFcompare_antisym (a b : spec_float) (c : comparison) :
  SFcompare a b = Some c -> SFcompare b a = Some (CompOpp c).
Proof.
  destruct a as [sa|sa| |sa ma ea], b as [sb|sb| |sb mb eb]; cbn; intros [= <-];
    try discriminate; sf_order.
Qed.

Lemma SFcompare_trans_lt (a b c : spec_float) :
  SFcompare a b = Some Lt -> SFcompare b c = Some Lt -> SFcompare a c = Some Lt.
Proof.
  destruct a as [sa|sa| |sa ma ea], b as [sb|sb| |sb mb eb],
           c as [sc|sc| |sc mc ec]; cbn; intros H1 H2;
    try discriminate; sf_order.
Qed.

Lemma SFcompare_eq_l (a b c : spec_float) (r : comparison) :
  SFcompare a b = Some Eq -> SFcompare b c = Some r -> SFcompare a c = Some r.
Proof.
  destruct a as [sa|sa| |sa ma ea], b as [sb|sb| |sb mb eb],
           c as [sc|sc| |sc mc ec]; cbn; intros H1 H2;
    try discriminate; sf_order.
Qed.

Lemma SFcompare_defined (a b : spec_float) (ca cb : comparison) :
  SFcompare a a = Some ca -> SFcompare b b = Some cb ->
  exists c, SFcompare a b = Some c.
Proof.
  destruct a as [sa|sa| |sa ma ea], b as [sb|sb| |sb mb eb]; cbn; intros H1 H2;
    try discriminate; eauto.
Qed.

Lemma not_nan_compare (x : float) :
  not_nan x = true -> SFcompare (Prim2SF x) (Prim2SF x) = Some Eq.
Proof.
  unfold not_nan. rewrite FloatAxioms.eqb_spec. unfold SFeqb.
  destruct (SFcompare _ _) as [[]|]; congruence.
Qed.

Lemma leb_refl (x : float) : not_nan x = true -> (x <=? x)%float = true.
Proof.
  intros H. rewrite FloatAxioms.leb_spec. unfold SFleb. now rewrite (not_nan_compare x H).
Qed.

Lemma ltb_false_leb (m x : float) :
  not_nan m = true -> not_nan x = true ->
  (m <? x)%float = false -> (x <=? m)%float = true.
Proof.
  intros Hm Hx. rewrite FloatAxioms.ltb_spec, FloatAxioms.leb_spec. unfold SFltb, SFleb.
  destruct (SFcompare_defined _ _ _ _ (not_nan_compare m Hm) (not_nan_compare x Hx))
    as [c Hc].
  rewrite Hc, (SFcompare_antisym _ _ _ Hc). destruct c; cbn; congruence.
Qed.

Lemma leb_ltb_trans (a m x : float) :
  (a <=? m)%float = true -> (m <? x)%float = true -> (a <? x)%float = true.
Proof.
  rewrite FloatAxioms.leb_spec, !FloatAxioms.ltb_spec. unfold SFleb, SFltb.
  destruct (SFcompare (Prim2SF a) (Prim2SF m)) as [[]|] eqn:H1; try discriminate;
    destruct (SFcompare (Prim2SF m) (Prim2SF x)) as [[]|] eqn:H2;
    try discriminate; intros _ _.
  - now rewrite (SFcompare_eq_l _ _ _ _ H1 H2).
  - now rewrite (SFcompare_trans_lt _ _ _ H1 H2).
Qed.

Lemma ltb_leb (a x : float) : (a <? x)%float = true -> (a <=? x)%float = true.
Proof.
  rewrite FloatAxioms.leb_spec, FloatAxioms.ltb_spec. unfold SFleb, SFltb.
  destruct (SFcompare _ _) as [[]|]; congruence.
Qed.

(** ** [argmax_d] *)

Lemma read_d_lookup (arr : list float) (k : nat) (x : float) :
  arr !! k = Some x -> read_d arr (Z.of_nat k) = Ok x.
Proof.
  intros H. unfold read_d.
  destruct (Z.ltb_spec (Z.of_nat k) 0) as [|_]; [lia|].
  now rewrite Nat2Z.id, H.
Qed.

(** The loop returns, its result is the index it started with or one it
    visited, and it reads only indices below its bound. *)
Lemma argmax_loop_runs (arr : list float) (todo k mi : nat) (log : list Z) :
  (mi <= k)%nat -> (k + todo <= length arr)%nat ->
  exists r log',
    argmax_loop arr todo (Z.of_nat k) (Z.of_nat mi) log = Ok (Z.of_nat r, log ++ log') /\
    (r = mi \/ (k <= r < k + todo)%nat) /\
    Forall (fun j => 0 <= j < Z.of_nat (k + todo)) log'.
Proof.
  revert k mi log. induction todo as [|todo IH]; intros k mi log Hmi Hlen.
  - exists mi, []. rewrite app_nil_r. cbn. auto.
  - destruct (lookup_lt_is_Some_2 arr k ltac:(lia)) as [x Hx].
    destruct (lookup_lt_is_Some_2 arr mi ltac:(lia)) as [m Hm].
    cbn [argmax_loop]. rewrite (read_d_lookup _ _ _ Hx), (read_d_lookup _ _ _ Hm).
    cbn [bind].
    replace (Z.of_nat k + 1) with (Z.of_nat (S k)) by lia.
    replace (if (m <? x)%float then Z.of_nat k else Z.of_nat mi)
      with (Z.of_nat (if (m <? x)%float then k else mi))
      by (now destruct (m <? x)%float).
    destruct (IH (S k) (if (m <? x)%float then k else mi)
                (log ++ [Z.of_nat k; Z.of_nat mi]))
      as (r & log' & Hrun & Hr & Hlog).
    + destruct (m <? x)%float; lia.
    + lia.
    + exists r, ([Z.of_nat k; Z.of_nat mi] ++ log').
      rewrite app_assoc. split; [exact Hrun|]. split.
      * destruct (m <? x)%float; lia.
      * apply Forall_app. split.
        -- repeat constructor; lia.
        -- eapply Forall_impl; [exact Hlog|]. cbn. intros; lia.
Qed.

(** C10: with [n = 0] (or below) [argmax_d] returns 0 and reads nothing,
    whatever the array is; with [n >= 1] elements it returns an index between
    0 and [n - 1], having read only such indices. *)
Theorem argmax_d_index_in_range (arr : list float) (n : Z) :
  argmax_d arr 0 = Ok (0, []) /\
  (n <= 0 -> argmax_d arr n = Ok (0, [])) /\
  (1 <= n <= Z.of_nat (length arr) ->
   exists r log, argmax_d arr n = Ok (r, log) /\ 0 <= r <= n - 1 /\
                 Forall (fun j => 0 <= j <= n - 1) log).
Proof.
  split; [reflexivity|split].
  - intros H. unfold argmax_d. now replace (Z.to_nat n) with 0%nat by lia.
  - intros H. unfold argmax_d.
    destruct (argmax_loop_runs arr (Z.to_nat n) 0 0 []) as (r & log & Hrun & Hr & Hlog);
      [lia|lia|].
    exists (Z.of_nat r), log. split; [exact Hrun|]. split; [lia|].
    eapply Forall_impl; [exact Hlog|]. cbn. intros; lia.
Qed.

Lemma argmax_d_index_in_range_witness :
  exists r log, argmax_d [3; 1; 4]%float 3 = Ok (r, log) /\ 0 <= r <= 3 - 1 /\
                Forall (fun j => 0 <= j <= 3 - 1) log.
Proof.
  destruct (argmax_d_index_in_range [3; 1; 4]%float 3) as (_ & _ & H).
  apply H. cbn. lia.
Defined.

(** On an array without NaN the loop keeps [arr[maxidx]] above everything
    it has passed, and strictly above everything in front of [maxidx]. *)
Lemma argmax_loop_max (arr : list float) (todo k mi : nat) (log : list Z)
    (m : float) :
  forallb not_nan arr = true ->
  (mi <= k)%nat -> (k + todo <= length arr)%nat ->
  arr !! mi = Some m ->
  (forall j x, (j < k)%nat -> arr !! j = Some x -> (x <=? m)%float = true) ->
  (forall j x, (j < mi)%nat -> arr !! j = Some x -> (x <? m)%float = true) ->
  exists r log' m',
    argmax_loop arr todo (Z.of_nat k) (Z.of_nat mi) log = Ok (Z.of_nat r, log') /\
    arr !! r = Some m' /\
    (forall j x, (j < k + todo)%nat -> arr !! j = Some x -> (x <=? m')%float = true) /\
    (forall j x, (j < r)%nat -> arr !! j = Some x -> (x <? m')%float = true).
Proof.
  intros Hnan. rewrite forallb_forall in Hnan.
  assert (Hnn : forall j x, arr !! j = Some x -> not_nan x = true).
  { intros j x Hj. apply Hnan, list_elem_of_In, list_elem_of_lookup. eauto. }
  revert k mi log m.
  induction todo as [|todo IH]; intros k mi log m Hmi Hlen Hm Hle Hlt.
  - exists mi, log, m. rewrite Nat.add_0_r. cbn. auto.
  - destruct (lookup_lt_is_Some_2 arr k ltac:(lia)) as [x Hx].
    cbn [argmax_loop]. rewrite (read_d_lookup _ _ _ Hx), (read_d_lookup _ _ _ Hm).
    cbn [bind].
    replace (Z.of_nat k + 1) with (Z.of_nat (S k)) by lia.
    replace (k + S todo)%nat with (S k + todo)%nat by lia.
    destruct (m <? x)%float eqn:Hmx.
    + apply (IH (S k) k _ x); [lia|lia|exact Hx| |].
      * intros j y Hj Hy. destruct (Nat.eq_dec j k) as [->|Hne].
        -- assert (y = x) by congruence. subst y. apply leb_refl. eauto.
        -- apply ltb_leb, (leb_ltb_trans y m x); [|exact Hmx].
           apply (Hle j); [lia|exact Hy].
      * intros j y Hj Hy. apply (leb_ltb_trans y m x); [|exact Hmx].
        apply (Hle j); [lia|exact Hy].
    + apply (IH (S k) mi _ m); [lia|lia|exact Hm| |exact Hlt].
      intros j y Hj Hy. destruct (Nat.eq_dec j k) as [->|Hne].
      * assert (y = x) by congruence. subst y. apply ltb_false_leb; eauto.
      * apply (Hle j); [lia|exact Hy].
Qed.

(** C8, as the claim has it, fails on an array that starts with a NaN: no
    element compares greater than a NaN, so index 0 is returned, although
    the value there is not the maximum ([1 <= NaN] is false). *)
Lemma argmax_d_nan_first :
  argmax_d [nan; 1%float] 2 = Ok (0, [0; 0; 1; 0]) /\
  ~ is_argmax [nan; 1%float] 0.
Proof.
  split; [reflexivity|].
  intros (m & _ & Hm & Hle & _). cbn in Hm. injection Hm as <-.
  specialize (Hle 1%nat 1%float eq_refl). vm_compute in Hle. discriminate.
Qed.

(** C8, amended: on a non-empty array of doubles none of which is a NaN,
    [argmax_d] returns the index of the maximum value, the lowest one when
    several indices hold it; [argmax([3,1,4,1,5]) = 4] and
    [argmax([2,2]) = 0]. *)
Theorem argmax_d_is_argmax (arr : list float) :
  arr <> [] ->
  forallb not_nan arr = true ->
  (exists r log,
      argmax_d arr (Z.of_nat (length arr)) = Ok (r, log) /\
      0 <= r < Z.of_nat (length arr) /\ is_argmax arr r) /\
  (exists log, argmax_d [3; 1; 4; 1; 5]%float 5 = Ok (4, log)) /\
  (exists log, argmax_d [2; 2]%float 2 = Ok (0, log)).
Proof.
  intros Hne Hnan. split; [|split; eexists; reflexivity].
  destruct arr as [|x0 arr']; [congruence|].
  set (arr := x0 :: arr') in *.
  destruct (argmax_loop_max arr (length arr) 0 0 [] x0 Hnan)
    as (r & log & m & Hrun & Hm & Hle & Hlt); try (cbn; lia); try reflexivity.
  exists (Z.of_nat r), log. unfold argmax_d. rewrite Nat2Z.id.
  split; [exact Hrun|]. apply lookup_lt_Some in Hm as Hr. split; [lia|].
  exists m. rewrite Nat2Z.id. split; [lia|]. split; [exact Hm|]. split.
  - intros j x Hj. apply (Hle j x); [|exact Hj]. apply lookup_lt_Some in Hj. lia.
  - exact Hlt.
Qed.

Lemma argmax_d_is_argmax_witness :
  (exists r log,
      argmax_d [3; 1; 4; 1; 5]%float (Z.of_nat (length [3; 1; 4; 1; 5]%float))
        = Ok (r, log) /\
      0 <= r < Z.of_nat (length [3; 1; 4; 1; 5]%float) /\
      is_argmax [3; 1; 4; 1; 5]%float r) /\
  (exists log, argmax_d [3; 1; 4; 1; 5]%float 5 = Ok (4, log)) /\
  (exists log, argmax_d [2; 2]%float 2 = Ok (0, log)).
Proof.
  apply (argmax_d_is_argmax [3; 1; 4; 1; 5]%float).
  - discriminate.
  - reflexivity.
Defined.

(** ** The sort behind [dbl_median] *)

Section Qsort.

Context {A : Type}.
Variable cmp : A -> A -> Z.
Variable eqb : A -> A -> bool.
Hypothesis eqb_eq : forall x y, eqb x y = true -> x = y.

Lemma qsort_insert_perm (x : A) (l : list A) : qsort_insert cmp x l ≡ₚ x :: l.
Proof.
  induction l as [|y l IH]; cbn; [reflexivity|].
  destruct (cmp x y <=? 0); [reflexivity|].
  rewrite IH. apply Permutation_swap.
Qed.

Lemma qsort_perm (l : list A) : qsort cmp l ≡ₚ l.
Proof.
  induction l as [|x l IH]; cbn; [reflexivity|].
  now rewrite qsort_insert_perm, IH.
Qed.

Lemma qsort_length (l : list A) : length (qsort cmp l) = length l.
Proof. apply Permutation_length, qsort_perm. Qed.

(** What [cmp_consistent_on] says, element by element. *)
Lemma cmp_consistent_on_spec (l : list A) :
  cmp_consistent_on cmp l = true <->
  (forall x y, x ∈ l -> y ∈ l -> (cmp x y < 0 <-> 0 < cmp y x)) /\
  (forall x y z, x ∈ l -> y ∈ l -> z ∈ l ->
                 cmp_le cmp x y -> cmp_le cmp y z -> cmp_le cmp x z).
Proof.
  unfold cmp_consistent_on, cmp_le. split.
  - rewrite forallb_forall. intros H.
    assert (H' : forall x y, x ∈ l -> y ∈ l ->
      Bool.eqb (cmp x y <? 0) (0 <? cmp y x) = true /\
      forall z, z ∈ l ->
        implb ((cmp x y <=? 0) && (cmp y z <=? 0)) (cmp x z <=? 0) = true).
    { intros x y Hx Hy. apply list_elem_of_In in Hx, Hy.
      specialize (H x Hx). rewrite forallb_forall in H. specialize (H y Hy).
      apply andb_prop in H as [H1 H2].
      rewrite forallb_forall in H2. split; [assumption|].
      intros z Hz. apply H2. now apply list_elem_of_In. }
    split.
    + intros x y Hx Hy. destruct (H' x y Hx Hy) as (H1 & _).
      apply eqb_prop in H1. lia.
    + intros x y z Hx Hy Hz Hxy Hyz. destruct (H' x y Hx Hy) as (_ & H3).
      specialize (H3 z Hz).
      destruct (cmp x y <=? 0) eqn:E1; [|lia].
      destruct (cmp y z <=? 0) eqn:E2; [|lia]. cbn in H3. lia.
  - intros [Hsign Htrans]. apply forallb_forall. intros x Hx.
    apply forallb_forall. intros y Hy.
    apply list_elem_of_In in Hx, Hy. apply andb_true_intro. split.
    + apply eqb_true_iff. pose proof (Hsign x y Hx Hy). lia.
    + apply forallb_forall. intros z Hz. apply list_elem_of_In in Hz.
      pose proof (Htrans x y z Hx Hy Hz).
      destruct (cmp x y <=? 0) eqn:E1; [|reflexivity].
      destruct (cmp y z <=? 0) eqn:E2; [|reflexivity]. cbn. lia.
Qed.

(** Consistency is a property of the elements, not of their order. *)
Lemma cmp_consistent_on_perm (l k : list A) :
  l ≡ₚ k -> cmp_consistent_on cmp l = true -> cmp_consistent_on cmp k = true.
Proof.
  intros P. rewrite !cmp_consistent_on_spec. intros [Hsign Htrans]. split.
  - intros x y Hx Hy. rewrite <- P in Hx, Hy. now apply Hsign.
  - intros x y z Hx Hy Hz. rewrite <- P in Hx, Hy, Hz. now apply Htrans.
Qed.

Lemma cmp_consistent_on_total (l : list A) :
  cmp_consistent_on cmp l = true ->
  forall x y, x ∈ l -> y ∈ l -> cmp_le cmp x y \/ cmp_le cmp y x.
Proof.
  rewrite cmp_consistent_on_spec. intros [Hsign _] x y Hx Hy.
  pose proof (Hsign y x Hy Hx). unfold cmp_le. lia.
Qed.

(** What [cmp_total_on] says, element by element. *)
Lemma cmp_total_on_spec (l : list A) :
  cmp_total_on eqb cmp l = true ->
  cmp_consistent_on cmp l = true /\
  (forall x y, x ∈ l -> y ∈ l -> cmp_le cmp x y -> cmp_le cmp y x -> x = y).
Proof.
  unfold cmp_total_on. intros H. apply andb_prop in H as [Hc Hid].
  split; [exact Hc|]. intros x y Hx Hy Hxy Hyx.
  apply cmp_consistent_on_spec in Hc as [Hsign _].
  pose proof (Hsign x y Hx Hy) as S1. unfold cmp_le in *.
  rewrite forallb_forall in Hid. apply list_elem_of_In in Hx, Hy.
  specialize (Hid x Hx). rewrite forallb_forall in Hid. specialize (Hid y Hy).
  apply eqb_eq. destruct (Z.eqb_spec (cmp x y) 0) as [_|NE]; [exact Hid|lia].
Qed.

Lemma elem_of_skip (a x y : A) (l : list A) : a ∈ x :: l -> a ∈ x :: y :: l.
Proof.
  intros [->|H]%elem_of_cons; [left|right; right; exact H].
Qed.

Lemma qsort_insert_sorted (x : A) (l : list A) :
  (forall a b, a ∈ x :: l -> b ∈ x :: l -> cmp_le cmp a b \/ cmp_le cmp b a) ->
  (forall a b c, a ∈ x :: l -> b ∈ x :: l -> c ∈ x :: l ->
                 cmp_le cmp a b -> cmp_le cmp b c -> cmp_le cmp a c) ->
  StronglySorted (cmp_le cmp) l -> StronglySorted (cmp_le cmp) (qsort_insert cmp x l).
Proof.
  intros Htot Htrans Hs.
  induction Hs as [|y l Hs IH Hy]; cbn.
  - repeat constructor.
  - destruct (Z.leb_spec (cmp x y) 0) as [Hxy|Hxy].
    + constructor; [now constructor|]. constructor; [exact Hxy|].
      rewrite Forall_forall in Hy |- *. intros z Hz.
      apply (Htrans x y z); [left|right; left|right; right; exact Hz|exact Hxy|].
      now apply Hy.
    + constructor.
      * apply IH.
        -- intros a b Ha Hb. apply Htot; now apply elem_of_skip.
        -- intros a b c Ha Hb Hc. apply Htrans; now apply elem_of_skip.
      * rewrite Forall_forall in Hy |- *. intros z Hz.
        rewrite qsort_insert_perm in Hz. apply elem_of_cons in Hz as [->|Hz].
        -- destruct (Htot x y) as [H|H]; [left|right; left| |exact H].
           unfold cmp_le in H. lia.
        -- now apply Hy.
Qed.

Lemma qsort_sorted_on (l : list A) :
  (forall x y, x ∈ l -> y ∈ l -> cmp_le cmp x y \/ cmp_le cmp y x) ->
  (forall x y z, x ∈ l -> y ∈ l -> z ∈ l ->
                 cmp_le cmp x y -> cmp_le cmp y z -> cmp_le cmp x z) ->
  StronglySorted (cmp_le cmp) (qsort cmp l).
Proof.
  induction l as [|x l IH]; intros Htot Htrans; cbn; [constructor|].
  assert (Hin : forall a, a ∈ x :: qsort cmp l -> a ∈ x :: l).
  { intros a Ha. now rewrite qsort_perm in Ha. }
  apply qsort_insert_sorted.
  - intros a b Ha Hb. apply Htot; now apply Hin.
  - intros a b c Ha Hb Hc. apply Htrans; now apply Hin.
  - apply IH.
    + intros a b Ha Hb. apply Htot; now right.
    + intros a b c Ha Hb Hc. apply Htrans; now right.
Qed.

(** The reference sort meets the contract of the library's sort. *)
Lemma qsort_sorts_consistent_input : sorts_consistent_input cmp (qsort cmp).
Proof.
  intros l H. split; [apply qsort_perm|].
  apply qsort_sorted_on.
  - now apply cmp_consistent_on_total.
  - now apply cmp_consistent_on_spec in H as [_ H].
Qed.

(** Once the comparator orders the elements totally, they have one
    ascending arrangement only. *)
Lemma sorted_perm_unique (l s1 s2 : list A) :
  cmp_total_on eqb cmp l = true ->
  s1 ≡ₚ l -> s2 ≡ₚ l ->
  StronglySorted (cmp_le cmp) s1 -> StronglySorted (cmp_le cmp) s2 ->
  s1 = s2.
Proof.
  intros H P1 P2 S1 S2. apply cmp_total_on_spec in H as [_ Hasym].
  apply (StronglySorted_unique_strong (cmp_le cmp)); try assumption.
  - intros x y Hx Hy. rewrite P1 in Hx. rewrite P2 in Hy. now apply Hasym.
  - now rewrite P1, P2.
Qed.

End Qsort.

(** ** [dbl_median] *)

Lemma float_leibniz_eqb_eq (x y : float) : Leibniz.eqb x y = true -> x = y.
Proof. apply FloatAxioms.Leibniz.eqb_spec. Qed.

(** With the copy allocated, the median of a non-empty array is the middle
    of what the sort leaves, as long as the sort keeps the length. *)
Lemma dbl_median_unfold (served : Z -> bool) (sort : list float -> list float)
    (data : list float) :
  data <> [] ->
  Z.of_nat (length data) <= INT_MAX ->
  served (sizeof_double * Z.of_nat (length data)) = true ->
  length (sort data) = length data ->
  dbl_median served sort data (Z.of_nat (length data)) = Ok (middle_of (sort data)).
Proof.
  intros Hne Hint Hserved Hlen. unfold dbl_median, middle_of.
  rewrite Nat2Z.id, firstn_all, Hlen.
  destruct (Z.eqb_spec (Z.of_nat (length data)) 0) as [E|_].
  { destruct data; [congruence|discriminate]. }
  unfold size_t. rewrite Z.mod_small, Hserved
    by (unfold sizeof_double, INT_MAX in *; lia).
  cbn [negb].
  destruct (Z.ltb_spec (Z.of_nat (length data)) 0) as [|_]; [lia|].
  rewrite Z.ltb_irrefl. cbn [orb].
  now destruct (Z.of_nat (length data) mod 2 =? 0).
Qed.

(** C6, as the claim has it, fails for the last part: three values that lie
    within [DBL_EPSILON] of each other all compare equal, which is a
    consistent order; a sort that meets the library's contract may leave
    them where they are, as the reference sort does, and the median is
    whichever stands in the middle. *)
Lemma dbl_median_depends_on_order :
  [0; 0x1p-60; 0x1p-59]%float ≡ₚ [0x1p-60; 0; 0x1p-59]%float /\
  cmp_consistent_on dbl_cmp [0; 0x1p-60; 0x1p-59]%float = true /\
  sorts_consistent_input dbl_cmp (qsort dbl_cmp) /\
  dbl_median serves_all (qsort dbl_cmp) [0; 0x1p-60; 0x1p-59]%float 3
    = Ok 0x1p-60%float /\
  dbl_median serves_all (qsort dbl_cmp) [0x1p-60; 0; 0x1p-59]%float 3
    = Ok 0%float /\
  dbl_median serves_all (qsort dbl_cmp) [0; 0x1p-60; 0x1p-59]%float 3
    <> dbl_median serves_all (qsort dbl_cmp) [0x1p-60; 0; 0x1p-59]%float 3.
Proof.
  split; [apply Permutation_swap|].
  split; [reflexivity|].
  split; [apply qsort_sorts_consistent_input|].
  split; [reflexivity|]. split; [reflexivity|].
  intros H.
  assert (E : match dbl_median serves_all (qsort dbl_cmp)
                      [0; 0x1p-60; 0x1p-59]%float 3 with
              | Ok x => Leibniz.eqb x 0
              | _ => true
              end = true) by (rewrite H; reflexivity).
  vm_compute in E. discriminate.
Qed.

(** C6, amended: with a sort that meets the library's contract, an input
    of at most [INT_MAX] elements and the copy allocated, [dbl_median]
    returns 0.0 for the empty input, [median([1,2,3,4]) = 2.5] and
    [median([5]) = 5]; on a non-empty input on which [dbl_cmp] is a
    consistent order it returns the middle of an ascending arrangement of
    the input (the middle element for odd length, the mean of the two
    middle elements for even length); and when [dbl_cmp] orders the input
    totally, calling only identical values equal, that arrangement is the
    only one and the median is the same for every permutation of the
    input. *)
Theorem dbl_median_sorted_middle (served : Z -> bool)
    (sort : list float -> list float) (data : list float) :
  sorts_consistent_input dbl_cmp sort ->
  Z.of_nat (length data) <= INT_MAX ->
  served (sizeof_double * Z.of_nat (length data)) = true ->
  dbl_median served sort [] 0 = Ok 0%float /\
  (served 32 = true ->
     dbl_median served sort [1; 2; 3; 4]%float 4 = Ok 2.5%float) /\
  (served 8 = true -> dbl_median served sort [5]%float 1 = Ok 5%float) /\
  (data <> [] -> cmp_consistent_on dbl_cmp data = true ->
     exists sorted,
       sorted ≡ₚ data /\ StronglySorted (cmp_le dbl_cmp) sorted /\
       dbl_median served sort data (Z.of_nat (length data))
         = Ok (middle_of sorted)) /\
  (data <> [] -> cmp_total_on Leibniz.eqb dbl_cmp data = true ->
     (forall sorted,
         sorted ≡ₚ data -> StronglySorted (cmp_le dbl_cmp) sorted ->
         dbl_median served sort data (Z.of_nat (length data))
           = Ok (middle_of sorted)) /\
     (forall perm, data ≡ₚ perm ->
         dbl_median served sort perm (Z.of_nat (length perm)) =
         dbl_median served sort data (Z.of_nat (length data)))).
Proof.
  intros Hsort Hint Hserved.
  assert (Hconsistent : forall l, l <> [] -> Z.of_nat (length l) <= INT_MAX ->
            served (sizeof_double * Z.of_nat (length l)) = true ->
            cmp_consistent_on dbl_cmp l = true ->
            sort l ≡ₚ l /\ StronglySorted (cmp_le dbl_cmp) (sort l) /\
            dbl_median served sort l (Z.of_nat (length l))
              = Ok (middle_of (sort l))).
  { intros l Hne Hi Hs Hc. destruct (Hsort l Hc) as [P S].
    split; [exact P|]. split; [exact S|].
    apply dbl_median_unfold; try assumption. now apply Permutation_length. }
  assert (Htotal : forall l sorted, l <> [] -> Z.of_nat (length l) <= INT_MAX ->
            served (sizeof_double * Z.of_nat (length l)) = true ->
            cmp_total_on Leibniz.eqb dbl_cmp l = true ->
            sorted ≡ₚ l -> StronglySorted (cmp_le dbl_cmp) sorted ->
            dbl_median served sort l (Z.of_nat (length l))
              = Ok (middle_of sorted)).
  { intros l sorted Hne Hi Hs Ht P S.
    pose proof (cmp_total_on_spec dbl_cmp Leibniz.eqb float_leibniz_eqb_eq l Ht)
      as [Hc _].
    destruct (Hconsistent l Hne Hi Hs Hc) as (P' & S' & ->).
    now rewrite (sorted_perm_unique dbl_cmp Leibniz.eqb float_leibniz_eqb_eq
                   l (sort l) sorted Ht P' P S' S). }
  split; [reflexivity|].
  split.
  { intros H32.
    apply (Htotal [1; 2; 3; 4]%float [1; 2; 3; 4]%float).
    - discriminate.
    - vm_compute. discriminate.
    - exact H32.
    - reflexivity.
    - reflexivity.
    - repeat constructor; vm_compute; discriminate. }
  split.
  { intros H8.
    apply (Htotal [5]%float [5]%float).
    - discriminate.
    - vm_compute. discriminate.
    - exact H8.
    - reflexivity.
    - reflexivity.
    - repeat constructor. }
  split.
  { intros Hne Hc. exists (sort data). now apply Hconsistent. }
  intros Hne Ht. split.
  - intros sorted P S. now apply Htotal.
  - intros perm P.
    pose proof (cmp_total_on_spec dbl_cmp Leibniz.eqb float_leibniz_eqb_eq
                  data Ht) as [Hc _].
    destruct (Hconsistent data Hne Hint Hserved Hc) as (P' & S' & E).
    rewrite E. rewrite (Permutation_length P) in Hint, Hserved.
    destruct (Hconsistent perm) as (P2 & S2 & ->); try assumption.
    + intros ->. apply Permutation_nil_r in P. congruence.
    + now apply (cmp_consistent_on_perm dbl_cmp data perm).
    + f_equal. f_equal.
      apply (sorted_perm_unique dbl_cmp Leibniz.eqb float_leibniz_eqb_eq data);
        try assumption. now rewrite P.
Qed.

Lemma dbl_median_sorted_middle_witness :
  dbl_median serves_small (qsort dbl_cmp) [] 0 = Ok 0%float /\
  dbl_median serves_small (qsort dbl_cmp) [1; 2; 3; 4]%float 4 = Ok 2.5%float /\
  dbl_median serves_small (qsort dbl_cmp) [5]%float 1 = Ok 5%float /\
  dbl_median serves_small (qsort dbl_cmp) [3; 1; 2]%float 3
    = Ok (middle_of [1; 2; 3]%float) /\
  dbl_median serves_small (qsort dbl_cmp) [2; 3; 1]%float 3
    = dbl_median serves_small (qsort dbl_cmp) [3; 1; 2]%float 3.
Proof.
  destruct (dbl_median_sorted_middle serves_small (qsort dbl_cmp) [3; 1; 2]%float)
    as (H0 & H4 & H1 & _ & Htotal).
  - apply qsort_sorts_consistent_input.
  - vm_compute. discriminate.
  - reflexivity.
  - destruct Htotal as [Hmiddle Hperm]; [discriminate|reflexivity|].
    split; [exact H0|]. split; [apply H4; reflexivity|].
    split; [apply H1; reflexivity|]. split.
    + apply Hmiddle.
      * apply perm_trans with [1; 3; 2]%float; [apply perm_skip, Permutation_swap|].
        apply Permutation_swap.
      * repeat constructor; vm_compute; discriminate.
    + apply (Hperm [2; 3; 1]%float).
      apply perm_trans with [1; 3; 2]%float; [apply Permutation_swap|].
      apply perm_trans with [1; 2; 3]%float.
      * apply perm_skip, Permutation_swap.
      * apply (Permutation_cons_append [2; 3]%float 1%float).
Defined.

(** ** [is_dir] *)

Lemma is_dir_stat_failure (w : os) (cwd path : string) :
  os_stat w cwd path = None -> is_dir w cwd path = 0.
Proof. unfold is_dir. now intros ->. Qed.

Lemma is_dir_directory (w : os) (cwd path : string) (st_mode : Z) :
  os_stat w cwd path = Some st_mode -> S_ISDIR st_mode = true ->
  is_dir w cwd path = 1.
Proof.
  unfold is_dir, S_ISDIR. intros -> H. apply Z.eqb_eq in H.
  assert (E : Z.land st_mode S_IFDIR = S_IFDIR).
  { change S_IFDIR with (Z.land S_IFMT S_IFDIR) at 1.
    now rewrite Z.land_assoc, H. }
  now rewrite E.
Qed.

(** Whatever the permission bits, a block device is reported as a
    directory. *)
Lemma is_dir_any_block_device (w : os) (cwd path : string) (st_mode : Z) :
  os_stat w cwd path = Some st_mode -> Z.land st_mode S_IFMT = S_IFBLK ->
  is_dir w cwd path = 1.
Proof.
  unfold is_dir. intros -> H.
  assert (E : Z.land st_mode S_IFDIR = S_IFDIR).
  { change S_IFDIR with (Z.land S_IFMT S_IFDIR) at 1.
    now rewrite Z.land_assoc, H. }
  now rewrite E.
Qed.

(** [is_dir] answers 1 exactly when [stat] succeeds and bit 14 of [st_mode]
    is set. *)
Lemma is_dir_tests_one_bit (w : os) (cwd path : string) :
  is_dir w cwd path = 1 <->
  exists st_mode, os_stat w cwd path = Some st_mode /\ Z.testbit st_mode 14 = true.
Proof.
  unfold is_dir.
  assert (B : forall m, Z.land m S_IFDIR = 0 <-> Z.testbit m 14 = false).
  { intros m. change S_IFDIR with (2 ^ 14). split.
    - intros H. apply (f_equal (fun x => Z.testbit x 14)) in H.
      rewrite Z.land_spec, Z.pow2_bits_true, andb_true_r in H by lia.
      now rewrite H.
    - intros H. apply Z.bits_inj'. intros k Hk.
      rewrite Z.land_spec, Z.bits_0, Z.pow2_bits_eqb by lia.
      destruct (Z.eqb_spec 14 k) as [<-|_]; [now rewrite H|apply andb_false_r]. }
  destruct (os_stat w cwd path) as [m|].
  - destruct (Z.eqb_spec (Z.land m S_IFDIR) 0) as [E|NE]; cbn [negb].
    + apply B in E. split; [discriminate|]. intros (m' & [= <-] & H). congruence.
    + split; [|reflexivity]. intros _. exists m. split; [reflexivity|].
      destruct (Z.testbit m 14) eqn:T; [reflexivity|]. now apply B in T.
  - split; [discriminate|]. intros (m' & H & _). discriminate.
Qed.

(** C7: the code tests the single bit [S_IFDIR] of [st_mode] and not the
    file type field.  A block device and a socket carry that bit: they
    exist, are not directories, and [is_dir] returns 1 for them. *)
Theorem is_dir_block_device :
  os_stat dev_os "/" "/dev/sda" = Some 25008 /\
  S_ISDIR 25008 = false /\
  Z.land 25008 S_IFMT = S_IFBLK /\
  is_dir dev_os "/" "/dev/sda" = 1 /\
  S_ISDIR 49645 = false /\
  is_dir dev_os "/" "/run/lofreq.sock" = 1.
Proof. repeat split. Qed.

(** ** [ae_load_file_to_memory] *)

(** The return value -2 is never produced. *)
Lemma load_never_reports_allocation_failure (io : stdio) (filename : string)
    (result_addr : option unit) (p : pointer) :
  ae_load_file_to_memory io filename result_addr <> Ok (-2, p).
Proof.
  unfold ae_load_file_to_memory.
  destruct (io_fopen io filename) as [f|];
    destruct result_addr as [[]|]; cbn [store_out bind is_null]; try discriminate.
  destruct (fread _ _ _) as [[nread p1]| |]; cbn [bind fst snd]; try discriminate.
  destruct (negb _); [discriminate|].
  unfold store_byte. destruct p1 as [|cells|]; cbn [bind]; try discriminate.
  destruct (Z.leb_spec 0 (to_int (Z.of_nat (length (f_bytes f))))) as [H|H];
    cbn [andb]; [|discriminate].
  destruct (_ <? _)%nat; cbn [bind]; [|discriminate].
  intros [= E _]. lia.
Qed.

Lemma to_int_small (x : Z) : 0 <= x < 2 ^ 31 -> to_int x = x.
Proof. unfold to_int. intros H. rewrite Z.mod_small; lia. Qed.

(** When the file does not open: -1, and [*result] is [NULL]. *)
Lemma load_open_failure (io : stdio) (filename : string) :
  io_fopen io filename = None ->
  ae_load_file_to_memory io filename (Some tt) = Ok (-1, Null).
Proof. unfold ae_load_file_to_memory. now intros ->. Qed.

(** When everything is served: the byte count, and the bytes followed by
    the terminator. *)
Lemma load_success (io : stdio) (filename : string) (f : FILE) :
  io_fopen io filename = Some f ->
  Z.of_nat (length (f_bytes f)) < 2 ^ 31 - 1 ->
  (length (f_bytes f) <= f_readable f)%nat ->
  io_malloc_ok io (Z.of_nat (length (f_bytes f)) + 1) = true ->
  ae_load_file_to_memory io filename (Some tt)
    = Ok (Z.of_nat (length (f_bytes f)), Block (map Some (f_bytes f) ++ [Some 0])).
Proof.
  intros Hopen Hlen Hread Hmem. unfold ae_load_file_to_memory.
  rewrite Hopen, to_int_small by lia. cbn [store_out bind is_null].
  rewrite !size_t_small by (unfold SIZE_MAX; lia).
  unfold malloc. rewrite Hmem.
  replace (Z.to_nat (Z.of_nat (length (f_bytes f)) + 1))
    with (S (length (f_bytes f))) by lia.
  unfold fread. destruct (Z.eqb_spec (Z.of_nat (length (f_bytes f))) 0) as [E|NE].
  - destruct (f_bytes f) as [|b bs] eqn:Hb; [|discriminate]. reflexivity.
  - rewrite Nat2Z.id, Nat.min_l by exact Hread.
    rewrite firstn_all.
    destruct (Nat.leb_spec (length (f_bytes f)) (length (replicate (S (length (f_bytes f))) (@None Z))))
      as [_|H]; [|rewrite length_replicate in H; lia].
    cbn [bind fst snd]. rewrite Z.eqb_refl. cbn [negb].
    replace (S (length (f_bytes f))) with (length (f_bytes f) + 1)%nat by lia.
    rewrite replicate_add, drop_app_length'
      by (now rewrite length_replicate).
    unfold store_byte.
    destruct (Z.leb_spec 0 (Z.of_nat (length (f_bytes f)))) as [_|]; [|lia].
    rewrite Nat2Z.id, length_app, length_map. cbn [length replicate andb].
    destruct (Nat.ltb_spec (length (f_bytes f)) (length (f_bytes f) + 1)) as [_|];
      [|lia].
    cbn [bind]. do 3 f_equal.
    rewrite insert_app_r_alt by (rewrite length_map; lia).
    now rewrite length_map, Nat.sub_diag.
Qed.

(** When the stream gives out early: the block is freed and -3 returned. *)
Lemma load_short_read (io : stdio) (filename : string) (f : FILE) :
  io_fopen io filename = Some f ->
  Z.of_nat (length (f_bytes f)) < 2 ^ 31 - 1 ->
  (f_readable f < length (f_bytes f))%nat ->
  io_malloc_ok io (Z.of_nat (length (f_bytes f)) + 1) = true ->
  ae_load_file_to_memory io filename (Some tt) = Ok (-3, Dangling).
Proof.
  intros Hopen Hlen Hread Hmem. unfold ae_load_file_to_memory.
  rewrite Hopen, to_int_small by lia. cbn [store_out bind is_null].
  rewrite !size_t_small by (unfold SIZE_MAX; lia).
  unfold malloc. rewrite Hmem. unfold fread.
  destruct (Z.eqb_spec (Z.of_nat (length (f_bytes f))) 0) as [E|NE]; [lia|].
  rewrite Nat2Z.id, Nat.min_r by lia.
  rewrite length_take, length_replicate, Nat.min_l by lia.
  destruct (Nat.leb_spec (f_readable f) (Z.to_nat (Z.of_nat (length (f_bytes f)) + 1)))
    as [_|]; [|lia].
  cbn [bind fst snd].
  destruct (Z.eqb_spec (Z.of_nat (length (f_bytes f))) (Z.of_nat (f_readable f)));
    [lia|reflexivity].
Qed.

(** C5: the file opens and [malloc] fails.  The test after [malloc] looks
    at the out-parameter [result], not at the block [*result], so it does
    not fire: the call goes on to [fread] into the null block instead of
    returning -2.  The other parts hold: -1 with [*result = NULL] when the
    file does not open, -3 with the block freed on a short read, and on
    success the byte count together with the bytes and a terminator. *)
Theorem load_ignores_failed_malloc :
  io_fopen no_memory "reads.txt" = Some reads_file /\
  malloc no_memory 6 = Null /\
  ae_load_file_to_memory no_memory "reads.txt" (Some tt) = OutOfBounds /\
  ae_load_file_to_memory no_memory "missing.txt" (Some tt) = Ok (-1, Null) /\
  ae_load_file_to_memory enough_memory "broken.txt" (Some tt) = Ok (-3, Dangling) /\
  ae_load_file_to_memory enough_memory "reads.txt" (Some tt)
    = Ok (5, Block [Some 65; Some 67; Some 71; Some 84; Some 10; Some 0]).
Proof. repeat split. Qed.

(** ** [readlink_malloc] *)

(** The first [readlink] runs before the first [realloc]: it is handed the
    null pointer, fails, and the function returns [NULL], for every link
    whose content is not empty. *)
Lemma readlink_malloc_nonempty_target (fuel : nat) (w : os) (cwd filename : string)
    (c : ascii) (t : string) :
  os_link_target w cwd filename = Some (String c t) ->
  readlink_malloc (S fuel) w cwd filename = Some (Ok None).
Proof.
  unfold readlink_malloc. intros ->. reflexivity.
Qed.

(** C4: [/tmp/link] points to [reads.bam], nine bytes.  The first read is
    made into the null pointer, before the 100-byte block exists; it fails,
    and [readlink_malloc] returns [NULL] instead of the target. *)
Theorem readlink_malloc_reads_before_allocating :
  os_link_target one_link "/" "/tmp/link" = Some "reads.bam"%string /\
  readlink (Some "reads.bam"%string) None 100 = Ok (-1, None) /\
  readlink_malloc 1 one_link "/" "/tmp/link" = Some (Ok None) /\
  (forall fuel, readlink_malloc (S fuel) one_link "/" "/tmp/link" = Some (Ok None)) /\
  ~ (exists fuel buffer,
       readlink_malloc fuel one_link "/" "/tmp/link" = Some (Ok (Some buffer)) /\
       holds_target buffer "reads.bam").
Proof.
  repeat split. intros (fuel & buffer & H & _).
  destruct fuel as [|fuel]; discriminate H.
Qed.

(** ** [resolved_path] *)

(** What [readlink_malloc] hands to [resolved_path]: started on the null
    buffer it ends in its first round, with [NULL], or, for a link whose
    content is empty, with a block no byte of which was written. *)
Lemma readlink_malloc_first_round (fuel : nat) (w : os) (cwd filename : string) :
  readlink_malloc (S fuel) w cwd filename = Some (Ok None) \/
  (os_link_target w cwd filename = Some ""%string /\
   exists buffer,
     readlink_malloc (S fuel) w cwd filename = Some (Ok (Some buffer)) /\
     buffer_string buffer = None).
Proof.
  unfold readlink_malloc.
  destruct (os_link_target w cwd filename) as [[|c t]|].
  - right. split; [reflexivity|]. eexists. split; reflexivity.
  - left. reflexivity.
  - left. reflexivity.
Qed.

(** The runs of the loop that return: each ends in the first round, through
    a failed [lstat], at a path that is not a link, through a failed
    [readlink_malloc], or, for a link without content, through a failed
    [chdir] into the link's directory. *)
Lemma resolved_path_loop_exits (fuel : nat) (w : os) (orig_wd cwd path : string)
    (r : returned) :
  resolved_path_loop fuel w orig_wd cwd path = Some (Ok r) ->
  (os_lstat w cwd path = None /\
   r = chdir_and_return w orig_wd cwd None LstatFailed) \/
  (exists st_mode,
     os_lstat w cwd path = Some st_mode /\ S_ISLNK st_mode = false /\
     r = chdir_and_return w orig_wd cwd (Some path) Resolved) \/
  (exists st_mode,
     os_lstat w cwd path = Some st_mode /\ S_ISLNK st_mode = true /\
     (r = chdir_and_return w orig_wd cwd None ReadlinkFailed \/
      r = {| ret_path := None; ret_cwd := cwd; ret_exit := ChdirFailed |})).
Proof.
  destruct fuel as [|fuel]; [discriminate|]. cbn [resolved_path_loop].
  destruct (os_lstat w cwd path) as [st_mode|]; [|intros [= <-]; auto].
  destruct (S_ISLNK st_mode) eqn:Hlnk; cbn [negb].
  2: { intros [= <-]. right. left. eauto. }
  intros H. right. right. exists st_mode. split; [reflexivity|].
  split; [exact Hlnk|].
  destruct (readlink_malloc_first_round fuel w cwd path)
    as [E|(_ & buffer & E & Hbuf)]; rewrite E in H.
  - injection H as <-. now left.
  - destruct (os_chdir w cwd (dirname path)) as [cwd'|].
    + rewrite Hbuf in H. discriminate.
    + injection H as <-. now right.
Qed.

Lemma chdir_and_return_fields (w : os) (orig_wd cwd : string)
    (p : option string) (e : exit_point) :
  ret_path (chdir_and_return w orig_wd cwd p e) = p /\
  ret_exit (chdir_and_return w orig_wd cwd p e) = e /\
  (ret_cwd (chdir_and_return w orig_wd cwd p e) = cwd \/
   os_chdir w cwd orig_wd = Some (ret_cwd (chdir_and_return w orig_wd cwd p e))).
Proof.
  unfold chdir_and_return. destruct (os_chdir w cwd orig_wd); cbn; auto.
Qed.

(** Where a returning run leaves the process: in the directory it was
    called in, or where the final [chdir(orig_wd)] has put it. *)
Lemma resolved_path_cwd (fuel : nat) (w : os) (cwd path : string) (r : returned) :
  resolved_path fuel w cwd path = Some (Ok r) ->
  ret_cwd r = cwd \/ os_chdir w cwd cwd = Some (ret_cwd r).
Proof.
  unfold resolved_path. destruct (os_getcwd_ok w cwd).
  - intros H. apply resolved_path_loop_exits in H
      as [[_ ->]|[(m & _ & _ & ->)|(m & _ & _ & [->| ->])]];
      try apply chdir_and_return_fields.
    now left.
  - intros [= <-]. now left.
Qed.

(** A call with fuel for one round ends. *)
Lemma resolved_path_ends (fuel : nat) (w : os) (cwd path : string) :
  exists outcome, resolved_path (S fuel) w cwd path = Some outcome.
Proof.
  unfold resolved_path. destruct (os_getcwd_ok w cwd); [|eauto].
  cbn [resolved_path_loop].
  destruct (os_lstat w cwd path) as [st_mode|]; [|eauto].
  destruct (negb (S_ISLNK st_mode)); [eauto|].
  destruct (readlink_malloc_first_round fuel w cwd path)
    as [E|(_ & buffer & E & Hbuf)]; rewrite E; [eauto|].
  destruct (os_chdir w cwd (dirname path)); [|eauto].
  rewrite Hbuf. eauto.
Qed.

(** C1: every call of [resolved_path] ends in its first round, and every
    call that returns, with a path or with [NULL], leaves the process in the
    working directory saved at the start, given that a [chdir] to that
    directory, made from it, stays in it when it succeeds.  The exits
    through [chdir_and_return] are made from the starting directory: a link
    never gets past [readlink_malloc], which returns [NULL] for it, or, for
    a link without content, a block whose bytes were never written, so that
    the only [chdir] into another directory is followed by [realpath]
    reading that block, which is no return.  The exit after a failed
    [chdir] is taken before the directory has changed. *)
Theorem resolved_path_keeps_working_directory (w : os) (cwd path : string) :
  (forall c, os_chdir w cwd cwd = Some c -> c = cwd) ->
  (forall fuel, exists outcome, resolved_path (S fuel) w cwd path = Some outcome) /\
  (forall fuel r, resolved_path fuel w cwd path = Some (Ok r) -> ret_cwd r = cwd).
Proof.
  intros Hlaw. split.
  - intros fuel. apply resolved_path_ends.
  - intros fuel r H. apply resolved_path_cwd in H as [H|H]; [exact H|].
    now apply Hlaw.
Qed.

Lemma resolved_path_keeps_working_directory_witness :
  (forall c, os_chdir one_link "/home/u" "/home/u" = Some c ->
             c = "/home/u"%string) /\
  (forall fuel, exists outcome,
      resolved_path (S fuel) one_link "/home/u" "/tmp/link" = Some outcome) /\
  (forall fuel r,
      resolved_path fuel one_link "/home/u" "/tmp/link" = Some (Ok r) ->
      ret_cwd r = "/home/u"%string).
Proof.
  assert (L : forall c, os_chdir one_link "/home/u" "/home/u" = Some c ->
                        c = "/home/u"%string).
  { intros c [= <-]. reflexivity. }
  split; [exact L|].
  exact (resolved_path_keeps_working_directory one_link "/home/u" "/tmp/link" L).
Defined.

(* ===================================================================== *)
(** * Part III: the remaining functions *)
(* ===================================================================== *)

(** ** [int_cmp] *)

Lemma int_cmp_le (a b : Z) : cmp_le int_cmp a b <-> a <= b.
Proof.
  unfold cmp_le, int_cmp.
  destruct (Z.ltb_spec a b); [lia|]. destruct (Z.gtb_spec a b); lia.
Qed.

(** X1: [int_cmp] is a consistent three-way comparison on all of [int]: it
    is -1, 0 or 1 as [a < b], [a = b] or [a > b], swapping the arguments
    negates it, and it is transitive; a sort driven by it returns the input
    in ascending order. *)
Theorem int_cmp_orders (l : list Z) (a b c : Z) :
  (int_cmp a b = -1 <-> a < b) /\
  (int_cmp a b = 0 <-> a = b) /\
  (int_cmp a b = 1 <-> a > b) /\
  int_cmp a b = - int_cmp b a /\
  (int_cmp a b <= 0 -> int_cmp b c <= 0 -> int_cmp a c <= 0) /\
  qsort int_cmp l ≡ₚ l /\
  StronglySorted Z.le (qsort int_cmp l).
Proof.
  assert (Hcases : forall x y,
    (x < y /\ int_cmp x y = -1) \/ (x = y /\ int_cmp x y = 0) \/
    (x > y /\ int_cmp x y = 1)).
  { intros x y. unfold int_cmp.
    destruct (Z.ltb_spec x y); [lia|]. destruct (Z.gtb_spec x y); lia. }
  destruct (Hcases a b) as [H|[H|H]], (Hcases b a) as [H'|[H'|H']],
           (Hcases b c) as [H2|[H2|H2]], (Hcases a c) as [H3|[H3|H3]];
    try lia.
  all: repeat (split; [lia|]).
  all: split; [apply qsort_perm|].
  all: assert (S : StronglySorted (cmp_le int_cmp) (qsort int_cmp l))
         by (apply qsort_sorted_on;
             [intros x y _ _; rewrite !int_cmp_le; lia
             |intros x y z _ _ _; rewrite !int_cmp_le; lia]).
  all: induction S as [|x k S IH HF]; constructor; [exact IH|].
  all: eapply Forall_impl; [exact HF|]; intros y Hy; now apply int_cmp_le.
Qed.

(** ** [chomp] *)

Lemma strlen_spec (buf : list ascii) (len : nat) :
  strlen buf = Some len ->
  buf !! len = Some Ascii.zero /\
  (forall i c, (i < len)%nat -> buf !! i = Some c -> c <> Ascii.zero).
Proof.
  revert len. induction buf as [|c buf IH]; intros len; cbn; [discriminate|].
  destruct (Ascii.eqb_spec c Ascii.zero) as [->|Hc].
  - intros [= <-]. split; [reflexivity|]. intros i c Hi. lia.
  - destruct (strlen buf) as [k|]; cbn; [|discriminate].
    intros [= <-]. destruct (IH k eq_refl) as [Hz Hnz]. split; [exact Hz|].
    intros [|i] d Hi; cbn.
    + now intros [= <-].
    + apply Hnz. lia.
Qed.

Lemma strlen_first_zero (buf : list ascii) (len : nat) :
  buf !! len = Some Ascii.zero ->
  (forall i c, (i < len)%nat -> buf !! i = Some c -> c <> Ascii.zero) ->
  strlen buf = Some len.
Proof.
  revert len. induction buf as [|c buf IH]; intros len Hz Hnz; [discriminate|].
  cbn. destruct len as [|len]; cbn in Hz.
  - injection Hz as ->. now rewrite Ascii.eqb_refl.
  - destruct (Ascii.eqb_spec c Ascii.zero) as [->|Hc].
    + exfalso. now apply (Hnz 0%nat Ascii.zero ltac:(lia)).
    + rewrite (IH len Hz); [reflexivity|].
      intros i d Hi. apply (Hnz (S i)). lia.
Qed.

(** X2: on a buffer that holds a string of fewer than [2^31] bytes, [chomp]
    never changes the length of the buffer; when the string ends in a
    newline the string left is the old one without that one newline (a
    second newline in front of it stays); otherwise the buffer is
    untouched, the empty string included. *)
Theorem chomp_removes_one_newline (s str : list ascii) :
  c_string s = Some str ->
  Z.of_nat (length str) < 2 ^ 31 ->
  exists s',
    chomp s = Ok s' /\
    length s' = length s /\
    (forall body, str = body ++ ["010"%char] -> c_string s' = Some body) /\
    (last str <> Some "010"%char -> s' = s).
Proof.
  unfold c_string, chomp. destruct (strlen s) as [len|] eqn:Hlen; cbn;
    [|discriminate].
  intros [= <-] Hshort.
  destruct (strlen_spec s len Hlen) as [Hz Hnz].
  assert (Hlt : (len < length s)%nat) by (now apply lookup_lt_Some in Hz).
  rewrite length_take, Nat.min_l in Hshort by lia.
  destruct len as [|len].
  - (* the empty string *)
    exists s. change (to_int (size_t (Z.of_nat 0 - 1))) with (-1). cbn.
    repeat split; try reflexivity.
    intros body H. rewrite take_0 in H. now destruct body.
  - assert (Hend : to_int (size_t (Z.of_nat (S len) - 1)) = Z.of_nat len).
    { replace (Z.of_nat (S len) - 1) with (Z.of_nat len) by lia.
      rewrite size_t_small by (unfold SIZE_MAX; lia). apply to_int_small. lia. }
    rewrite Hend. destruct (Z.geb_spec (Z.of_nat len) 0) as [_|]; [|lia].
    rewrite Nat2Z.id.
    destruct (lookup_lt_is_Some_2 s len ltac:(lia)) as [c Hc]. rewrite Hc.
    assert (Hlast : take (S len) s = take len s ++ [c]) by (now apply take_S_r).
    destruct (Ascii.eqb_spec c "010"%char) as [->|Hnl].
    + exists (<[len := Ascii.zero]> s). split; [reflexivity|].
      split; [apply length_insert|]. split.
      * intros body Hbody. rewrite Hlast in Hbody.
        apply app_inj_tail in Hbody as [<- _].
        rewrite (strlen_first_zero _ len).
        -- cbn. now rewrite take_insert_ge by lia.
        -- apply list_lookup_insert_eq. lia.
        -- intros i d Hi. rewrite list_lookup_insert_ne by lia.
           apply Hnz. lia.
      * intros H. exfalso. apply H. rewrite Hlast. apply last_snoc.
    + exists s. repeat split; try reflexivity.
      intros body Hbody. rewrite Hlast in Hbody.
      apply app_inj_tail in Hbody as [_ ->]. congruence.
Qed.

Lemma chomp_removes_one_newline_witness :
  exists s',
    chomp ["a"; "010"; "010"; Ascii.zero; "x"]%char = Ok s' /\
    length s' = length ["a"; "010"; "010"; Ascii.zero; "x"]%char /\
    (forall body, ["a"; "010"; "010"]%char = body ++ ["010"%char] ->
                  c_string s' = Some body) /\
    (last ["a"; "010"; "010"]%char <> Some "010"%char ->
     s' = ["a"; "010"; "010"; Ascii.zero; "x"]%char).
Proof.
  apply (chomp_removes_one_newline
           ["a"; "010"; "010"; Ascii.zero; "x"]%char ["a"; "010"; "010"]%char).
  - reflexivity.
  - cbn. lia.
Defined.

(** ** [count_lines] *)

Lemma count_lines_loop_spec (stream : list Z) (count : Z) :
  0 <= count <= LONG_MAX ->
  count_lines_loop stream count =
    if count + newlines stream <=? LONG_MAX then count + newlines stream else -2.
Proof.
  unfold newlines. revert count.
  induction stream as [|c rest IH]; intros count Hc; cbn [count_lines_loop].
  - cbn [List.filter length]. change (Z.of_nat 0) with 0. rewrite Z.add_0_r.
    destruct (Z.leb_spec count LONG_MAX); lia.
  - cbn [List.filter]. destruct (Z.eqb_spec 10 c) as [<-|Hne]; cbn [length].
    + destruct (Z.eqb_spec count LONG_MAX) as [->|Hmax].
      * destruct (Z.leb_spec (LONG_MAX + Z.of_nat (S (length (List.filter (Z.eqb 10) rest)))) LONG_MAX);
          lia.
      * rewrite IH by lia.
        replace (count + 1 + Z.of_nat (length (List.filter (Z.eqb 10) rest)))
          with (count + Z.of_nat (S (length (List.filter (Z.eqb 10) rest)))) by lia.
        reflexivity.
    + apply IH. lia.
Qed.

(** X3: [count_lines] returns -1 when the file does not open; otherwise the
    number of newline bytes among the bytes the stream delivers, or -2 when
    that number is above [LONG_MAX]: never a wrapped count.  A stream that
    fails after some bytes is counted like a file that ends there. *)
Theorem count_lines_counts_newlines (io : stdio) (filename : string) :
  (io_fopen io filename = None -> count_lines io filename = -1) /\
  (forall f, io_fopen io filename = Some f ->
     count_lines io filename =
       if newlines (take (f_readable f) (f_bytes f)) <=? LONG_MAX
       then newlines (take (f_readable f) (f_bytes f))
       else -2) /\
  (count_lines io filename = -1 \/ count_lines io filename = -2 \/
   0 <= count_lines io filename <= LONG_MAX).
Proof.
  unfold count_lines. destruct (io_fopen io filename) as [f|].
  - rewrite count_lines_loop_spec by (unfold LONG_MAX; lia).
    rewrite Z.add_0_l. split; [discriminate|]. split.
    + now intros f' [= <-].
    + destruct (Z.leb_spec (newlines (take (f_readable f) (f_bytes f))) LONG_MAX);
        unfold newlines in *; lia.
  - split; [reflexivity|]. split; [discriminate|]. now left.
Qed.

(** X4: bytes that follow the last newline are not counted as a line: two
    files that differ only by a tail without a newline get the same count,
    and the counts of two pieces add up. *)
Theorem count_lines_last_line (head tail_ : list Z) :
  newlines head + newlines tail_ <= LONG_MAX ->
  count_lines_loop (head ++ tail_) 0
    = count_lines_loop head 0 + count_lines_loop tail_ 0 /\
  (Forall (fun c => c <> 10) tail_ ->
   count_lines_loop (head ++ tail_) 0 = count_lines_loop head 0).
Proof.
  intros Hsum.
  assert (Hn : forall l, 0 <= newlines l) by (intros; unfold newlines; lia).
  assert (Happ : newlines (head ++ tail_) = newlines head + newlines tail_).
  { unfold newlines. rewrite List.filter_app, length_app. lia. }
  pose proof (Hn head). pose proof (Hn tail_).
  rewrite !count_lines_loop_spec by (unfold LONG_MAX; lia).
  rewrite !Z.add_0_l, Happ.
  destruct (Z.leb_spec (newlines head + newlines tail_) LONG_MAX); [|lia].
  destruct (Z.leb_spec (newlines head) LONG_MAX); [|lia].
  destruct (Z.leb_spec (newlines tail_) LONG_MAX); [|lia].
  split; [reflexivity|].
  intros Hno. assert (E : newlines tail_ = 0); [|lia].
  unfold newlines. clear -Hno. induction Hno as [|c l Hc _ IH]; [reflexivity|].
  cbn [List.filter]. destruct (Z.eqb_spec 10 c); [congruence|exact IH].
Qed.

Lemma count_lines_last_line_witness :
  count_lines_loop ([97; 10; 98; 10] ++ [99]) 0
    = count_lines_loop [97; 10; 98; 10] 0 + count_lines_loop [99] 0 /\
  (Forall (fun c => c <> 10) [99] ->
   count_lines_loop ([97; 10; 98; 10] ++ [99]) 0
     = count_lines_loop [97; 10; 98; 10] 0).
Proof.
  apply (count_lines_last_line [97; 10; 98; 10] [99]).
  vm_compute. discriminate.
Defined.

(** ** [strcmp] as an order *)

Lemma byte_of_range (c : ascii) : 0 <= byte_of c < 256.
Proof. unfold byte_of. pose proof (nat_ascii_bounded c). lia. Qed.

Lemma byte_of_inj (c d : ascii) : byte_of c = byte_of d -> c = d.
Proof.
  unfold byte_of. intros H. apply Nat2Z.inj in H.
  rewrite <- (ascii_nat_embedding c), <- (ascii_nat_embedding d). now rewrite H.
Qed.

Lemma strcmp_total (a b : string) : strcmp a b <= 0 \/ strcmp b a <= 0.
Proof.
  revert b. induction a as [|c a IH]; intros [|d b]; cbn.
  - lia.
  - pose proof (byte_of_range d). lia.
  - pose proof (byte_of_range c). lia.
  - destruct (Ascii.eqb_spec c d) as [->|Hne].
    + rewrite Ascii.eqb_refl. destruct (byte_of d =? 0); [lia|apply IH].
    + destruct (Ascii.eqb_spec d c) as [->|_]; [congruence|]. lia.
Qed.

Lemma strcmp_trans (a b c : string) :
  strcmp a b <= 0 -> strcmp b c <= 0 -> strcmp a c <= 0.
Proof.
  revert b c. induction a as [|x a IH]; intros [|y b] [|z c]; cbn;
    try pose proof (byte_of_range x); try pose proof (byte_of_range y);
    try pose proof (byte_of_range z); try lia.
  - (* b is empty: x is the zero byte *)
    intros Hx _. destruct (Ascii.eqb_spec x z) as [->|Hne]; [|lia].
    destruct (Z.eqb_spec (byte_of z) 0); lia.
  - intros Hxy Hy. destruct (Ascii.eqb_spec x y) as [->|Hne]; [lia|].
    assert (byte_of x <> byte_of y) by (intros E; now apply byte_of_inj in E).
    lia.
  - destruct (Ascii.eqb_spec x y) as [->|Hxy];
      destruct (Ascii.eqb_spec y z) as [->|Hyz].
    + destruct (byte_of z =? 0); [lia|apply IH].
    + lia.
    + rewrite (proj2 (Ascii.eqb_neq x z) Hxy). lia.
    + intros Hle1 Hle2. destruct (Ascii.eqb_spec x z) as [->|Hxz].
      * assert (byte_of z <> byte_of y) by (intros E; now apply byte_of_inj in E).
        lia.
      * lia.
Qed.

(** ** [strstr] finds occurrences *)

Lemma prefix_spec (needle haystack : string) :
  String.prefix needle haystack = true <->
  exists rest, haystack = (needle ++ rest)%string.
Proof.
  revert haystack. induction needle as [|c needle IH]; intros haystack.
  - split; [intros _; now exists haystack|intros _; now destruct haystack].
  - destruct haystack as [|d haystack]; cbn.
    + split; [discriminate|]. intros [rest H]. discriminate.
    + destruct (ascii_dec c d) as [->|Hne].
      * rewrite IH. split; intros [rest H]; exists rest.
        -- now rewrite H.
        -- change (String d needle ++ rest)%string
             with (String d (needle ++ rest)) in H. now injection H.
      * split; [discriminate|]. intros [rest H].
        change (String c needle ++ rest)%string
          with (String c (needle ++ rest)) in H. congruence.
Qed.

Lemma strstr_spec (haystack needle : string) :
  strstr haystack needle = true <->
  exists front rest, haystack = (front ++ needle ++ rest)%string.
Proof.
  induction haystack as [|d haystack IH].
  - cbn [strstr]. destruct (String.prefix needle "") eqn:P.
    + split; [intros _|reflexivity]. apply prefix_spec in P as [rest H].
      now exists ""%string, rest.
    + split; [discriminate|]. intros (front & rest & H).
      destruct front as [|c front]; [|discriminate].
      assert (String.prefix needle "" = true) by (apply prefix_spec; eauto).
      congruence.
  - cbn [strstr]. destruct (String.prefix needle (String d haystack)) eqn:P.
    + split; [intros _|reflexivity]. apply prefix_spec in P as [rest H].
      now exists ""%string, rest.
    + rewrite IH. split.
      * intros (front & rest & ->). now exists (String d front), rest.
      * intros (front & rest & H). destruct front as [|c front].
        -- assert (String.prefix needle (String d haystack) = true)
             by (apply prefix_spec; eauto). congruence.
        -- change (String c front ++ needle ++ rest)%string
             with (String c (front ++ needle ++ rest)) in H.
           injection H as _ ->. eauto.
Qed.

(** ** [ls_dir] *)

Lemma default_as_array (l : list string) : default [] (as_array l) = l.
Proof. now destruct l. Qed.

Lemma as_array_snoc (l : list string) (x : string) :
  Some (l ++ [x]) = as_array (l ++ [x]).
Proof. now destruct l. Qed.

(** A loop that reaches the end of the directory has stored the whole
    selection. *)
Lemma ls_dir_loop_complete (de : dir_env) (path : string) (pattern : option string)
    (entries accl : list string) (num : Z) (m : option (list string)) :
  Z.of_nat (length accl) <= INT_MAX ->
  ls_dir_loop de path pattern entries (as_array accl) (Z.of_nat (length accl))
    = Ok (Some (num, m)) ->
  num = Z.of_nat (length (accl ++ selected path pattern entries)) /\
  num <= INT_MAX /\
  m = as_array (accl ++ selected path pattern entries).
Proof.
  unfold selected. revert accl.
  induction entries as [|d_name rest IH]; intros accl Hint;
    cbn [ls_dir_loop List.filter].
  - cbn. rewrite app_nil_r. now intros [= <- <-].
  - destruct (is_match pattern d_name); cbn [negb]; [|now apply IH].
    destruct (Z.eqb_spec (Z.of_nat (length accl)) INT_MAX) as [|Hroom];
      [discriminate|].
    destruct (de_realloc_ok de _); cbn [negb]; [|discriminate].
    destruct (de_calloc_ok de _); cbn [negb]; [|discriminate].
    unfold sprintf_path. destruct (_ <=? _); cbn [bind]; [|discriminate].
    rewrite default_as_array, as_array_snoc.
    replace (Z.of_nat (length accl) + 1)
      with (Z.of_nat (length (accl ++ [(path ++ "/" ++ d_name)%string])))
      by (rewrite length_app; cbn; lia).
    intros H. apply IH in H; [|rewrite length_app; cbn [length]; lia].
    cbn [map]. now rewrite <- app_assoc in H.
Qed.

(** With every allocation served the loop reaches the end. *)
Lemma ls_dir_loop_served (de : dir_env) (path : string) (pattern : option string)
    (entries accl : list string) :
  (forall size, de_realloc_ok de size = true) ->
  (forall size, de_calloc_ok de size = true) ->
  Forall (fun d_name => Z.of_nat (String.length path)
                        + Z.of_nat (String.length d_name) + 2 <= SIZE_MAX) entries ->
  Z.of_nat (length (accl ++ selected path pattern entries)) <= INT_MAX ->
  exists num m,
    ls_dir_loop de path pattern entries (as_array accl) (Z.of_nat (length accl))
      = Ok (Some (num, m)).
Proof.
  intros Hre Hca Hfit. revert accl. unfold selected.
  induction Hfit as [|d_name rest Hd _ IH]; intros accl Hint;
    cbn [ls_dir_loop List.filter] in *.
  - eauto.
  - destruct (is_match pattern d_name); cbn [negb]; [|now apply IH].
    cbn [map] in Hint. rewrite length_app in Hint. cbn [length] in Hint.
    destruct (Z.eqb_spec (Z.of_nat (length accl)) INT_MAX) as [|_]; [lia|].
    rewrite Hre, Hca. cbn [negb]. unfold sprintf_path.
    rewrite size_t_small by lia.
    destruct (Z.leb_spec
                (Z.of_nat (String.length path + 1 + String.length d_name) + 1)
                (Z.of_nat (String.length path)
                 + Z.of_nat (String.length d_name) + 1 + 1)) as [_|]; [|lia].
    cbn [bind]. rewrite default_as_array, as_array_snoc.
    replace (Z.of_nat (length accl) + 1)
      with (Z.of_nat (length (accl ++ [(path ++ "/" ++ d_name)%string])))
      by (rewrite length_app; cbn; lia).
    apply IH. rewrite <- app_assoc. cbn [app]. rewrite length_app.
    cbn [length]. lia.
Qed.

(** X5: when the directory opens, every allocation is served and the
    kept entries are at most [INT_MAX], [ls_dir] without sorting
    returns the number of kept entries and, in the order
    the directory delivers them, each kept name behind [path] and a slash;
    an entry is kept when there is no pattern or the pattern occurs
    somewhere in its name, the entries [.] and [..] like any other.  With
    no kept entry the count is 0 and the array stays null. *)
Theorem ls_dir_lists_selection (de : dir_env) (path : string)
    (pattern : option string) (entries : list string) :
  de_opendir de path = Some entries ->
  (forall size, de_realloc_ok de size = true) ->
  (forall size, de_calloc_ok de size = true) ->
  Forall (fun d_name => Z.of_nat (String.length path)
                        + Z.of_nat (String.length d_name) + 2 <= SIZE_MAX) entries ->
  Z.of_nat (length (selected path pattern entries)) <= INT_MAX ->
  ls_dir de path pattern false
    = Ok (Z.of_nat (length (selected path pattern entries)),
          as_array (selected path pattern entries)) /\
  (pattern = None ->
   selected path pattern entries
     = map (fun d_name => (path ++ "/" ++ d_name)%string) entries) /\
  (forall pat p, pattern = Some pat ->
     (p ∈ selected path pattern entries <->
      exists d_name front rest,
        d_name ∈ entries /\ d_name = (front ++ pat ++ rest)%string /\
        p = (path ++ "/" ++ d_name)%string)).
Proof.
  intros Hopen Hre Hca Hfit Hint. split; [|split].
  3: { intros pat p ->. unfold selected.
       rewrite list_elem_of_In, in_map_iff. split.
       - intros (d_name & <- & Hin). apply filter_In in Hin as [Hin Hm].
         cbn [is_match] in Hm. apply strstr_spec in Hm as (front & rest & ->).
         exists (front ++ pat ++ rest)%string, front, rest.
         split; [now apply list_elem_of_In|auto].
       - intros (d_name & front & rest & Hin & Hd & ->). exists d_name.
         split; [reflexivity|]. apply filter_In.
         split; [now apply list_elem_of_In|].
         cbn [is_match]. apply strstr_spec. eauto. }
  - unfold ls_dir. rewrite Hopen.
    destruct (ls_dir_loop_served de path pattern entries [] Hre Hca Hfit Hint)
      as (num & m & Hloop).
    change None with (as_array []). change 0 with (Z.of_nat (@length string [])).
    rewrite Hloop. cbn [bind].
    apply ls_dir_loop_complete in Hloop as (-> & _ & ->); [reflexivity|].
    vm_compute. discriminate.
  - intros ->. unfold selected. f_equal. clear.
    induction entries as [|e l IH]; [reflexivity|].
    cbn [List.filter is_match]. now rewrite IH.
Qed.

Lemma ls_dir_lists_selection_witness :
  ls_dir sample_dir "/data" (Some "foo"%string) false
    = Ok (Z.of_nat (length (selected "/data" (Some "foo"%string)
                     ["."; ".."; "b_foo.bam"; "notes.txt"; "a_foo.bam"]%string)),
          as_array (selected "/data" (Some "foo"%string)
                     ["."; ".."; "b_foo.bam"; "notes.txt"; "a_foo.bam"]%string)) /\
  (Some "foo"%string = None ->
   selected "/data" (Some "foo"%string)
     ["."; ".."; "b_foo.bam"; "notes.txt"; "a_foo.bam"]%string
     = map (fun d_name => ("/data" ++ "/" ++ d_name)%string)
           ["."; ".."; "b_foo.bam"; "notes.txt"; "a_foo.bam"]%string) /\
  (forall pat p, Some "foo"%string = Some pat ->
     (p ∈ selected "/data" (Some "foo"%string)
            ["."; ".."; "b_foo.bam"; "notes.txt"; "a_foo.bam"]%string <->
      exists d_name front rest,
        d_name ∈ ["."; ".."; "b_foo.bam"; "notes.txt"; "a_foo.bam"]%string /\
        d_name = (front ++ pat ++ rest)%string /\
        p = ("/data" ++ "/" ++ d_name)%string)).
Proof.
  apply (ls_dir_lists_selection sample_dir).
  - reflexivity.
  - reflexivity.
  - reflexivity.
  - repeat constructor; vm_compute; discriminate.
  - vm_compute. discriminate.
Defined.

(** X6: with [sort_lexi] set, [ls_dir] returns the same count, an [int]
    of at most [INT_MAX], and an array that holds the same strings as
    without it, rearranged so that no string is followed by one that
    [strcmp] puts in front of it. *)
Theorem ls_dir_sorts (de : dir_env) (path : string) (pattern : option string)
    (num : Z) (unsorted : list string) :
  ls_dir de path pattern false = Ok (num, Some unsorted) ->
  num <= INT_MAX /\
  exists sorted,
    ls_dir de path pattern true = Ok (num, Some sorted) /\
    sorted ≡ₚ unsorted /\
    StronglySorted (fun a b => strcmp a b <= 0) sorted.
Proof.
  unfold ls_dir. destruct (de_opendir de path) as [entries|]; [|discriminate].
  destruct (ls_dir_loop de path pattern entries None 0) as [[[k m]|]| |] eqn:Hloop;
    cbn [bind]; try discriminate.
  intros [= -> ->]. split.
  { change None with (as_array []) in Hloop.
    change 0 with (Z.of_nat (@length string [])) in Hloop.
    apply ls_dir_loop_complete in Hloop as (_ & H & _); [exact H|].
    vm_compute. discriminate. }
  exists (qsort str_cmp unsorted).
  split; [reflexivity|]. split; [apply qsort_perm|].
  apply (qsort_sorted_on str_cmp).
  - intros x y _ _. apply strcmp_total.
  - intros x y z _ _ _. apply strcmp_trans.
Qed.

Lemma ls_dir_sorts_witness :
  2 <= INT_MAX /\
  exists sorted,
    ls_dir sample_dir "/data" (Some "foo"%string) true
      = Ok (2, Some sorted) /\
    sorted ≡ₚ ["/data/b_foo.bam"; "/data/a_foo.bam"]%string /\
    StronglySorted (fun a b => strcmp a b <= 0) sorted.
Proof.
  apply (ls_dir_sorts sample_dir "/data" (Some "foo"%string) 2
           ["/data/b_foo.bam"; "/data/a_foo.bam"]%string).
  reflexivity.
Defined.

(** X7: whatever the allocator does, a call of [ls_dir] that returns
    either returns -1 and leaves the array null, or returns the complete
    selection with its count, which is then at most [INT_MAX]: a partial
    list is never handed back. *)
Theorem ls_dir_never_partial (de : dir_env) (path : string)
    (pattern : option string) (sort_lexi : bool) (code : Z)
    (m : option (list string)) :
  ls_dir de path pattern sort_lexi = Ok (code, m) ->
  (code = -1 /\ m = None) \/
  (exists entries,
     de_opendir de path = Some entries /\
     code = Z.of_nat (length (selected path pattern entries)) /\
     code <= INT_MAX /\
     m = (if sort_lexi then qsort str_cmp <$> as_array (selected path pattern entries)
          else as_array (selected path pattern entries))).
Proof.
  unfold ls_dir. destruct (de_opendir de path) as [entries|];
    [|intros [= <- <-]; now left].
  destruct (ls_dir_loop de path pattern entries None 0) as [[[k arr]|]| |] eqn:Hloop;
    cbn [bind]; try discriminate; [|intros [= <- <-]; now left].
  intros [= <- <-]. right. exists entries. split; [reflexivity|].
  change None with (as_array []) in Hloop.
  change 0 with (Z.of_nat (@length string [])) in Hloop.
  apply ls_dir_loop_complete in Hloop as (-> & H & ->); [auto|].
  vm_compute. discriminate.
Qed.

Lemma ls_dir_never_partial_witness :
  (-1 = -1 /\ @None (list string) = None) \/
  (exists entries,
     de_opendir tight_dir "/data" = Some entries /\
     -1 = Z.of_nat (length (selected "/data" (Some "foo"%string) entries)) /\
     -1 <= INT_MAX /\
     None = (if false
             then qsort str_cmp <$> as_array (selected "/data" (Some "foo"%string) entries)
             else as_array (selected "/data" (Some "foo"%string) entries))).
Proof.
  apply (ls_dir_never_partial tight_dir "/data" (Some "foo"%string) false).
  reflexivity.
Defined.

(** ** [join_paths] *)

Lemma string_length_append (a b : string) :
  String.length (a ++ b) = (String.length a + String.length b)%nat.
Proof.
  induction a as [|c a IH]; [reflexivity|].
  change (String c a ++ b)%string with (String c (a ++ b)).
  cbn [String.length]. now rewrite IH.
Qed.

Lemma string_append_assoc (a b c : string) :
  ((a ++ b) ++ c = a ++ b ++ c)%string.
Proof.
  induction a as [|x a IH]; [reflexivity|].
  change ((String x a ++ b) ++ c)%string with (String x ((a ++ b) ++ c)).
  change (String x a ++ b ++ c)%string with (String x (a ++ b ++ c)).
  now rewrite IH.
Qed.

(** X8: for a base and a component that together stay below [INT_MAX]
    bytes, a [realpath] that keeps its answers below [PATH_MAX], and an
    allocator that serves the three requests of the call, no copy in
    [join_paths] leaves its buffer.  The call hands [base/component] to
    [realpath]; when that resolves, the answer is returned and stored in
    [*p1]; when it does not, [NULL] is returned and [*p1] still holds the
    base.  A null [p1] or [p2] gives [NULL] and changes nothing, whatever
    the allocator does. *)
Theorem join_paths_joins (je : join_env) (w : os) (cwd base component : string) :
  Z.of_nat (String.length base) + Z.of_nat (String.length component) + 2
    <= INT_MAX ->
  (forall p r, os_realpath w cwd p = Some r ->
               Z.of_nat (String.length r) < PATH_MAX) ->
  (forall size, je_buf_ok je size = true) ->
  (forall size, je_buf_resolved_ok je size = true) ->
  (forall size, je_realloc_ok je size = true) ->
  join_paths je w cwd (Some (Some base)) (Some component)
    = Ok (match os_realpath w cwd (base ++ "/" ++ component) with
          | Some resolved => (Some resolved, Some (Some resolved))
          | None => (None, Some (Some base))
          end) /\
  (forall je' p2, join_paths je' w cwd None p2 = Ok (None, None)) /\
  (forall je' p1, join_paths je' w cwd p1 None = Ok (None, p1)).
Proof.
  intros Hlen Hreal Hbuf_ok Hres_ok Hre_ok.
  split; [|split; [reflexivity|now intros je' [[?|]|]]].
  unfold join_paths. unfold INT_MAX in Hlen.
  set (L := Z.of_nat (String.length base) + 1
            + Z.of_nat (String.length component) + 1).
  rewrite (size_t_small L) by (unfold L, SIZE_MAX; lia).
  rewrite (to_int_small L) by (unfold L; lia).
  set (bufsize := if L <? PATH_MAX then PATH_MAX else L).
  assert (Hbuf : L <= bufsize /\ PATH_MAX <= bufsize /\ bufsize <= 2 ^ 31 - 1).
  { unfold bufsize, PATH_MAX in *. destruct (Z.ltb_spec L 4096); unfold L; lia. }
  rewrite (size_t_small bufsize) by (unfold SIZE_MAX; lia).
  rewrite Hbuf_ok, Hres_ok. cbn [negb].
  unfold strcat. cbn [String.length Nat.add].
  destruct (Z.leb_spec (Z.of_nat (String.length base) + 1) bufsize) as [_|];
    [|unfold L in *; lia].
  cbn [bind]. change ("" ++ base)%string with base.
  destruct (Z.leb_spec (Z.of_nat (String.length base + 1) + 1) bufsize) as [_|];
    [|unfold L in *; lia].
  cbn [bind]. rewrite string_length_append. cbn [String.length].
  destruct (Z.leb_spec
              (Z.of_nat (String.length base + 1 + String.length component) + 1)
              bufsize) as [_|]; [|unfold L in *; lia].
  cbn [bind]. rewrite string_append_assoc.
  destruct (os_realpath w cwd (base ++ "/" ++ component)) as [r|] eqn:Hr;
    [|reflexivity].
  apply Hreal in Hr. rewrite Hre_ok.
  destruct (Z.leb_spec (Z.of_nat (String.length r) + 1) bufsize) as [_|];
    [reflexivity|lia].
Qed.

Lemma join_paths_joins_witness :
  join_paths roomy root_os "/" (Some (Some "/tmp"%string)) (Some ".."%string)
    = Ok (match os_realpath root_os "/" ("/tmp" ++ "/" ++ "..") with
          | Some resolved => (Some resolved, Some (Some resolved))
          | None => (None, Some (Some "/tmp"%string))
          end) /\
  (forall je' p2, join_paths je' root_os "/" None p2 = Ok (None, None)) /\
  (forall je' p1, join_paths je' root_os "/" p1 None = Ok (None, p1)).
Proof.
  apply (join_paths_joins roomy root_os "/" "/tmp" "..").
  - vm_compute. discriminate.
  - intros p r. cbn. destruct (String.eqb p "/tmp/.."); [|discriminate].
    intros [= <-]. reflexivity.
  - reflexivity.
  - reflexivity.
  - reflexivity.
Defined.

(** Without room for [buf_resolved] the same call, whose path resolves,
    ends in [strlen] of a null pointer. *)
Lemma join_paths_unchecked_allocation :
  join_paths cramped root_os "/" (Some (Some "/tmp"%string)) (Some ".."%string)
    = OutOfBounds.
Proof. reflexivity. Qed.

(** ** More on [resolved_path] *)

(** X9: [resolved_path] never follows a link.  A path it returns is the
    path it was given, unchanged, and [lstat] has reported that path as not
    being a symbolic link; for a path that [lstat] reports as a symbolic
    link every returning call returns [NULL]. *)
Theorem resolved_path_returns_non_link (fuel : nat) (w : os) (cwd path : string)
    (r : returned) :
  resolved_path fuel w cwd path = Some (Ok r) ->
  (forall p, ret_path r = Some p ->
     p = path /\
     exists st_mode, os_lstat w cwd path = Some st_mode /\ S_ISLNK st_mode = false) /\
  (forall st_mode, os_lstat w cwd path = Some st_mode ->
     S_ISLNK st_mode = true -> ret_path r = None).
Proof.
  unfold resolved_path. destruct (os_getcwd_ok w cwd).
  - intros H. apply resolved_path_loop_exits in H
      as [[Hl ->]|[(m & Hl & Hm & ->)|(m & Hl & Hm & [->| ->])]].
    + destruct (chdir_and_return_fields w cwd cwd None LstatFailed) as (-> & _).
      split; [discriminate|reflexivity].
    + destruct (chdir_and_return_fields w cwd cwd (Some path) Resolved)
        as (-> & _).
      split.
      * intros p [= <-]. eauto.
      * intros m' Hl' Hm'. congruence.
    + destruct (chdir_and_return_fields w cwd cwd None ReadlinkFailed)
        as (-> & _).
      split; [discriminate|reflexivity].
    + split; [discriminate|reflexivity].
  - intros [= <-]. split; [discriminate|reflexivity].
Qed.

Lemma resolved_path_returns_non_link_witness :
  (forall p,
     ret_path {| ret_path := Some "/tmp/data.bam"%string;
                 ret_cwd := "/secret/sub"; ret_exit := Resolved |} = Some p ->
     p = "/tmp/data.bam"%string /\
     exists st_mode,
       os_lstat locked_out "/secret/sub" "/tmp/data.bam" = Some st_mode /\
       S_ISLNK st_mode = false) /\
  (forall st_mode,
     os_lstat locked_out "/secret/sub" "/tmp/data.bam" = Some st_mode ->
     S_ISLNK st_mode = true ->
     ret_path {| ret_path := Some "/tmp/data.bam"%string;
                 ret_cwd := "/secret/sub"; ret_exit := Resolved |} = None).
Proof.
  apply (resolved_path_returns_non_link 3 locked_out "/secret/sub"
           "/tmp/data.bam").
  reflexivity.
Defined.

(** X10: in an environment that serves the final [chdir(orig_wd)], every
    return of [resolved_path] other than the one on a failed
    [chdir(dirname)] leaves the process in the directory it started in:
    success, and the failures of [getcwd], [lstat], [readlink_malloc] and
    [realpath]. *)
Theorem resolved_path_ends_where_it_started (fuel : nat) (w : os)
    (cwd path : string) (r : returned) :
  (forall c, os_chdir w c cwd = Some cwd) ->
  resolved_path fuel w cwd path = Some (Ok r) ->
  ret_exit r <> ChdirFailed ->
  ret_cwd r = cwd.
Proof.
  intros Hback H _. apply resolved_path_cwd in H as [H|H]; [exact H|].
  rewrite Hback in H. now injection H.
Qed.

Lemma resolved_path_ends_where_it_started_witness :
  ret_cwd {| ret_path := None; ret_cwd := "/"; ret_exit := ReadlinkFailed |}
    = "/"%string.
Proof.
  apply (resolved_path_ends_where_it_started 3 one_link "/" "/tmp/link").
  - reflexivity.
  - reflexivity.
  - discriminate.
Defined.

(** ** How much the array allocates *)

Lemma inv_valid (g : Z) (done : list Z) (h : heap) (a : int_varray_t) :
  0 <= g <= SIZE_MAX -> varray_inv g done h a -> valid_varray a.
Proof.
  intros Hg (Hgrow & Hn & _ & Hsz & _). unfold valid_varray, sizeof_int in *.
  rewrite Hgrow. lia.
Qed.

Lemma add_value_alloced (served : Z -> bool) (h h' : heap)
    (a a' : int_varray_t) (v : Z) :
  valid_varray a ->
  int_varray_add_value served h a v = Ok (h', a') ->
  alloced a' = if needs_growth a then next_size a else alloced a.
Proof.
  intros V H. destruct (needs_growth a) eqn:G.
  - now destruct (add_value_new_size served h h' a a' v V G H).
  - unfold int_varray_add_value in H. rewrite G in H.
    now apply store_value_alloced in H.
Qed.

Lemma add_values_within_one_step (served : Z -> bool) (g : Z)
    (vs done : list Z) (h h' : heap) (a a' : int_varray_t) :
  0 <= g ->
  g <= 1 \/ g mod sizeof_int = 0 ->
  2 * sizeof_int * Z.of_nat (length (done ++ vs)) + g < SIZE_MAX ->
  (forall size,
      0 < size <= 2 * sizeof_int * Z.of_nat (length (done ++ vs)) + g ->
      served size = true) ->
  varray_inv g done h a ->
  within_one_step g (Z.of_nat (length done)) a ->
  add_values served h a vs = Ok (h', a') ->
  within_one_step g (Z.of_nat (length (done ++ vs))) a'.
Proof.
  intros Hg0 Hpol. revert done h a.
  induction vs as [|v vs IH]; intros done h a Hbound Hserved Hinv Hstep.
  - rewrite app_nil_r. now intros [= <- <-].
  - rewrite length_app in Hbound, Hserved. cbn [length] in Hbound, Hserved.
    destruct (add_value_keeps_inv served g done h a v Hg0 Hpol)
      as (h1 & a1 & Ha1 & Hi1);
      [unfold sizeof_int in *; lia
      |intros size Hs; apply Hserved; unfold sizeof_int in *; lia
      |assumption|].
    cbn [add_values]. rewrite Ha1. cbn [bind fst snd]. intros Hrun.
    replace (done ++ v :: vs) with ((done ++ [v]) ++ vs)
      by (now rewrite <- app_assoc).
    apply (IH (done ++ [v]) h1 a1); [| | exact Hi1 | | exact Hrun].
    + rewrite !length_app. cbn [length]. unfold sizeof_int in *. lia.
    + intros size Hs. apply Hserved. rewrite !length_app in Hs.
      cbn [length] in Hs. unfold sizeof_int in *. lia.
    + assert (V : valid_varray a).
      { apply (inv_valid g done h); [unfold sizeof_int in *; lia|exact Hinv]. }
      pose proof (add_value_alloced served h h1 a a1 v V Ha1) as Hal.
      destruct Hinv as (Hgrow & Hn & Hmod & Hsz & _).
      unfold needs_growth, next_size in Hal. rewrite Hgrow, Hn in Hal.
      rewrite size_t_small in Hal by (unfold sizeof_int, SIZE_MAX in *; lia).
      rewrite length_app. cbn [length]. right.
      unfold within_one_step, sizeof_int in *.
      destruct (Z.eqb_spec (Z.of_nat (length done) * 4) (alloced a)) as [E|NE];
        destruct (Z.geb_spec 1 g);
        try destruct (Z.eqb_spec 0 (Z.of_nat (length done)));
        lia.
Qed.

(** X11: the growth policy keeps the block close to what is stored.  After
    [N >= 1] appends to a fresh array, with sizes staying below [SIZE_MAX]
    and an allocator that serves the requests up to the largest size the
    run can ask for, the block has room for the [N] elements; under the
    doubling policy it is smaller than [2 N] elements, and with an
    increment of [g] bytes (a multiple of the element size) it is less than
    [g] bytes larger than the [N] elements. *)
Theorem add_values_overhead (served : Z -> bool) (h : heap) (g : Z)
    (vs : list Z) :
  0 <= g ->
  g <= 1 \/ g mod sizeof_int = 0 ->
  2 * sizeof_int * Z.of_nat (length vs) + g < SIZE_MAX ->
  (forall size,
      0 < size <= 2 * sizeof_int * Z.of_nat (length vs) + g ->
      served size = true) ->
  vs <> [] ->
  exists h' a,
    add_values served h (int_varray_init g) vs = Ok (h', a) /\
    sizeof_int * Z.of_nat (length vs) <= alloced a /\
    alloced a < (if 1 >=? g then 2 * sizeof_int * Z.of_nat (length vs)
                 else sizeof_int * Z.of_nat (length vs) + g).
Proof.
  intros Hg0 Hpol Hbound Hserved Hne.
  assert (Hinit : varray_inv g [] h (int_varray_init g))
    by (apply init_inv; unfold sizeof_int in *; lia).
  destruct (add_values_keep_inv served g vs [] h (int_varray_init g)
              Hg0 Hpol Hbound Hserved Hinit)
    as (h' & a & Ha & _ & Hn & _ & Hsz & _).
  exists h', a. split; [exact Ha|]. cbn [app] in Hn.
  split; [lia|].
  assert (Hstep : within_one_step g (Z.of_nat (length ([] ++ vs))) a).
  { apply (add_values_within_one_step served g vs [] h h' (int_varray_init g) a);
      try assumption. left. split; reflexivity. }
  cbn [app] in Hstep. destruct Hstep as [[H0 _]|[_ H]].
  - destruct vs; [congruence|discriminate].
  - exact H.
Qed.

Lemma add_values_overhead_witness :
  exists h' a,
    add_values serves_small ∅ (int_varray_init 8) [10; 20; 30; 40; 50]
      = Ok (h', a) /\
    sizeof_int * Z.of_nat (length [10; 20; 30; 40; 50]) <= alloced a /\
    alloced a < (if 1 >=? 8
                 then 2 * sizeof_int * Z.of_nat (length [10; 20; 30; 40; 50])
                 else sizeof_int * Z.of_nat (length [10; 20; 30; 40; 50]) + 8).
Proof.
  apply (add_values_overhead serves_small ∅ 8 [10; 20; 30; 40; 50]).
  - lia.
  - right. reflexivity.
  - unfold sizeof_int, SIZE_MAX. cbn. lia.
  - intros size Hs. unfold serves_small, sizeof_int in *. cbn in Hs. lia.
  - discriminate.
Defined.

(** ** More on [dbl_cmp], [dbl_median] and [argmax_d] *)

Lemma ltb_irrefl (x : float) : (x <? x)%float = false.
Proof.
  rewrite FloatAxioms.ltb_spec. unfold SFltb.
  destruct (SFcompare (Prim2SF x) (Prim2SF x)) as [[]|] eqn:H; try reflexivity.
  pose proof (SFcompare_antisym _ _ _ H) as H'. rewrite H in H'. discriminate.
Qed.

Lemma ltb_nan_l (x : float) : (nan <? x)%float = false.
Proof. rewrite FloatAxioms.ltb_spec. reflexivity. Qed.

Lemma ltb_nan_r (x : float) : (x <? nan)%float = false.
Proof.
  rewrite FloatAxioms.ltb_spec. change (Prim2SF nan) with S754_nan.
  unfold SFltb. now destruct (Prim2SF x).
Qed.

(** X12: the sign of [dbl_cmp] is sound: -1 only when [da < db], 1 only
    when [da > db].  It is 0 on equal arguments, and 0 whenever one
    argument is a NaN: a NaN compares equal to every value. *)
Theorem dbl_cmp_sign (da db : float) :
  (dbl_cmp da db = -1 -> (da <? db)%float = true) /\
  (dbl_cmp da db = 1 -> (db <? da)%float = true) /\
  (dbl_cmp da db = -1 \/ dbl_cmp da db = 0 \/ dbl_cmp da db = 1) /\
  dbl_cmp da da = 0 /\
  dbl_cmp nan db = 0 /\
  dbl_cmp da nan = 0.
Proof.
  unfold dbl_cmp. rewrite !ltb_irrefl, !ltb_nan_l, !ltb_nan_r.
  repeat split.
  - destruct (_ <? DBL_EPSILON)%float; [discriminate|].
    destruct (da <? db)%float; [reflexivity|].
    destruct (db <? da)%float; discriminate.
  - destruct (_ <? DBL_EPSILON)%float; [discriminate|].
    destruct (da <? db)%float; [discriminate|].
    destruct (db <? da)%float; [reflexivity|discriminate].
  - destruct (_ <? DBL_EPSILON)%float; [auto|].
    destruct (da <? db)%float; [auto|]. destruct (db <? da)%float; auto.
  - now destruct (_ <? DBL_EPSILON)%float.
  - now destruct (_ <? DBL_EPSILON)%float.
  - now destruct (_ <? DBL_EPSILON)%float.
Qed.

Lemma at_index_elem (l : list float) (k : Z) :
  0 <= k < Z.of_nat (length l) -> at_index l k ∈ l.
Proof.
  intros H. unfold at_index.
  destruct (lookup_lt_is_Some_2 l (Z.to_nat k) ltac:(lia)) as [x Hx].
  rewrite Hx. cbn. apply list_elem_of_lookup. eauto.
Qed.

(** X13: whatever arrangement the sort leaves, as long as it only moves
    the elements around: for every non-empty input of at most [INT_MAX]
    elements whose copy is allocated, NaN and near-equal values included,
    the median of an odd number of values is one of the values, and the
    median of an even number is the mean of two of them. *)
Theorem dbl_median_from_input (served : Z -> bool)
    (sort : list float -> list float) (data : list float) :
  rearranges sort ->
  data <> [] ->
  Z.of_nat (length data) <= INT_MAX ->
  served (sizeof_double * Z.of_nat (length data)) = true ->
  exists m,
    dbl_median served sort data (Z.of_nat (length data)) = Ok m /\
    (Z.of_nat (length data) mod 2 = 1 -> m ∈ data) /\
    (Z.of_nat (length data) mod 2 = 0 ->
     exists x y, x ∈ data /\ y ∈ data /\ m = ((x + y) / 2)%float).
Proof.
  intros Hsort Hne Hint Hserved.
  assert (Hsame : length (sort data) = length data)
    by (apply Permutation_length, Hsort).
  rewrite dbl_median_unfold by assumption.
  assert (Hlen : 1 <= Z.of_nat (length data)) by (destruct data; [congruence|cbn; lia]).
  assert (Hin : forall k, 0 <= k < Z.of_nat (length data) ->
                          at_index (sort data) k ∈ data).
  { intros k Hk. rewrite <- (Hsort data) at 2.
    apply at_index_elem. now rewrite Hsame. }
  unfold middle_of. rewrite Hsame.
  pose proof (Z.div_mod (Z.of_nat (length data)) 2 ltac:(lia)) as D.
  pose proof (Z.mod_pos_bound (Z.of_nat (length data)) 2 ltac:(lia)) as B.
  destruct (Z.eqb_spec (Z.of_nat (length data) mod 2) 0) as [E|NE];
    eexists; (split; [reflexivity|]); split; intros H; try lia.
  - eexists _, _. split; [|split; [|reflexivity]]; apply Hin; lia.
  - apply Hin. lia.
Qed.

Lemma dbl_median_from_input_witness :
  exists m,
    dbl_median serves_small (qsort dbl_cmp) [0x1p-60; 0; 0x1p-59]%float
      (Z.of_nat (length [0x1p-60; 0; 0x1p-59]%float)) = Ok m /\
    (Z.of_nat (length [0x1p-60; 0; 0x1p-59]%float) mod 2 = 1 ->
     m ∈ [0x1p-60; 0; 0x1p-59]%float) /\
    (Z.of_nat (length [0x1p-60; 0; 0x1p-59]%float) mod 2 = 0 ->
     exists x y, x ∈ [0x1p-60; 0; 0x1p-59]%float /\
                 y ∈ [0x1p-60; 0; 0x1p-59]%float /\
                 m = ((x + y) / 2)%float).
Proof.
  apply (dbl_median_from_input serves_small (qsort dbl_cmp)
           [0x1p-60; 0; 0x1p-59]%float).
  - intros l. apply qsort_perm.
  - discriminate.
  - vm_compute. discriminate.
  - reflexivity.
Defined.

Lemma SFcompare_eq_r (a b c : spec_float) (r : comparison) :
  SFcompare a b = Some r -> SFcompare b c = Some Eq -> SFcompare a c = Some r.
Proof.
  destruct a as [sa|sa| |sa ma ea], b as [sb|sb| |sb mb eb],
           c as [sc|sc| |sc mc ec]; cbn; intros H1 H2;
    try discriminate; sf_order.
Qed.

Lemma ltb_trans (a b c : float) :
  (a <? b)%float = true -> (b <? c)%float = true -> (a <? c)%float = true.
Proof.
  rewrite !FloatAxioms.ltb_spec. unfold SFltb.
  destruct (SFcompare (Prim2SF a) (Prim2SF b)) as [[]|] eqn:H1; try discriminate.
  destruct (SFcompare (Prim2SF b) (Prim2SF c)) as [[]|] eqn:H2; try discriminate.
  now rewrite (SFcompare_trans_lt _ _ _ H1 H2).
Qed.

Lemma ltb_eqb_trans (m x y : float) :
  (m <? x)%float = true -> (y =? x)%float = true -> (m <? y)%float = true.
Proof.
  rewrite !FloatAxioms.ltb_spec, FloatAxioms.eqb_spec. unfold SFltb, SFeqb.
  destruct (SFcompare (Prim2SF m) (Prim2SF x)) as [[]|] eqn:H1; try discriminate.
  destruct (SFcompare (Prim2SF y) (Prim2SF x)) as [[]|] eqn:H2; try discriminate.
  intros _ _. apply SFcompare_antisym in H2. cbn in H2.
  now rewrite (SFcompare_eq_r _ _ _ _ H1 H2).
Qed.

(** On every array the loop keeps [arr[maxidx]] unbeaten by what it has
    passed, and unequalled by what stands in front of [maxidx]. *)
Lemma argmax_loop_unbeaten (arr : list float) (todo k mi : nat) (log : list Z)
    (m : float) :
  (mi <= k)%nat -> (k + todo <= length arr)%nat ->
  arr !! mi = Some m ->
  (forall j x, (j < k)%nat -> arr !! j = Some x -> (m <? x)%float = false) ->
  (forall j x, (j < mi)%nat -> arr !! j = Some x -> (x =? m)%float = false) ->
  exists r log' m',
    argmax_loop arr todo (Z.of_nat k) (Z.of_nat mi) log = Ok (Z.of_nat r, log') /\
    arr !! r = Some m' /\
    (forall j x, (j < k + todo)%nat -> arr !! j = Some x -> (m' <? x)%float = false) /\
    (forall j x, (j < r)%nat -> arr !! j = Some x -> (x =? m')%float = false).
Proof.
  revert k mi log m.
  induction todo as [|todo IH]; intros k mi log m Hmi Hlen Hm Hub Hne.
  - exists mi, log, m. rewrite Nat.add_0_r. cbn. auto.
  - destruct (lookup_lt_is_Some_2 arr k ltac:(lia)) as [x Hx].
    cbn [argmax_loop]. rewrite (read_d_lookup _ _ _ Hx), (read_d_lookup _ _ _ Hm).
    cbn [bind].
    replace (Z.of_nat k + 1) with (Z.of_nat (S k)) by lia.
    replace (k + S todo)%nat with (S k + todo)%nat by lia.
    destruct (m <? x)%float eqn:Hmx.
    + apply (IH (S k) k _ x); [lia|lia|exact Hx| |].
      * intros j y Hj Hy. destruct (Nat.eq_dec j k) as [->|Hjk].
        -- assert (y = x) by congruence. subst y. apply ltb_irrefl.
        -- destruct (x <? y)%float eqn:Hxy; [|reflexivity].
           rewrite <- (Hub j y ltac:(lia) Hy). symmetry.
           now apply (ltb_trans m x y).
      * intros j y Hj Hy. destruct (y =? x)%float eqn:Hyx; [|reflexivity].
        rewrite <- (Hub j y ltac:(lia) Hy). symmetry.
        now apply (ltb_eqb_trans m x y).
    + apply (IH (S k) mi _ m); [lia|lia|exact Hm| |exact Hne].
      intros j y Hj Hy. destruct (Nat.eq_dec j k) as [->|Hjk].
      * assert (y = x) by congruence. now subst y.
      * apply (Hub j); [lia|exact Hy].
Qed.

(** X14: on every non-empty array of doubles, NaNs included, no element
    compares greater than the one at the index [argmax_d] returns, and no
    element in front of that index compares equal to it. *)
Theorem argmax_d_unbeaten (arr : list float) :
  arr <> [] ->
  exists r log m,
    argmax_d arr (Z.of_nat (length arr)) = Ok (r, log) /\
    0 <= r /\ arr !! Z.to_nat r = Some m /\
    (forall j x, arr !! j = Some x -> (m <? x)%float = false) /\
    (forall j x, (j < Z.to_nat r)%nat -> arr !! j = Some x ->
                 (x =? m)%float = false).
Proof.
  intros Hne. destruct arr as [|x0 arr']; [congruence|].
  set (arr := x0 :: arr') in *.
  destruct (argmax_loop_unbeaten arr (length arr) 0 0 [] x0)
    as (r & log & m & Hrun & Hm & Hub & Hneq); try (cbn; lia); try reflexivity.
  exists (Z.of_nat r), log, m. unfold argmax_d. rewrite !Nat2Z.id.
  split; [exact Hrun|]. split; [lia|]. split; [exact Hm|]. split; [|exact Hneq].
  intros j x Hj. apply (Hub j x); [|exact Hj]. apply lookup_lt_Some in Hj. lia.
Qed.

Lemma argmax_d_unbeaten_witness :
  exists r log m,
    argmax_d [1; nan; 3; 3]%float (Z.of_nat (length [1; nan; 3; 3]%float))
      = Ok (r, log) /\
    0 <= r /\ [1; nan; 3; 3]%float !! Z.to_nat r = Some m /\
    (forall j x, [1; nan; 3; 3]%float !! j = Some x -> (m <? x)%float = false) /\
    (forall j x, (j < Z.to_nat r)%nat -> [1; nan; 3; 3]%float !! j = Some x ->
                 (x =? m)%float = false).
Proof.
  apply (argmax_d_unbeaten [1; nan; 3; 3]%float). discriminate.
Defined.
